(** * flag-parser: a shallow embedding of [flags.hpp]

    The header declares, in namespace [flag], a command-line parser: flags
    are registered with [Parser::set], [Parser::parse] walks the argument
    vector once, [Parser::get] resolves a name or an alias.  The embedding
    follows the header member by member; the callback of a flag, which
    [parse] does not touch, is kept beside the flags for [Parser::call].

    - [std::string_view] is a list of characters; reading past the end of a
      view, and [substr] with a start beyond the end, have no result, so the
      functions that index views live in the [option] monad ([None] stands
      for the undefined read, respectively the [std::out_of_range] thrown).
    - [size_t] indices are [nat]; the only subtraction the parser performs,
      [sep_start - prefix_end], never goes below zero (lemma
      [parse_flag_ge_offset]).
    - A [Flag*] into the [std::list<Flag>] is the position of the flag in
      [m_flags]: the list only grows at its end, so positions are stable.
    - [double] is IEEE-754 binary64, as specified by [SpecFloat]. *)

From Stdlib Require Import ZArith Ascii String Floats.SpecFloat Lia.
From stdpp Require Import base option list gmap strings.

(** [std::string_view]: a borrowed run of characters. *)
Abbreviation string_view := (list ascii).

(** A string literal seen as a view. *)
Definition sv (s : string) : string_view :=
  Stdlib.Strings.String.list_ascii_of_string s.

(** [str.substr(pos, count)]: throws when [pos > size()], otherwise the
    characters from [pos], at most [count] of them. *)
Definition substr (str : string_view) (pos count : nat) : option string_view :=
  if decide (length str < pos) then None else Some (take count (drop pos str)).

(** [str.substr(pos)], the count defaulting to [npos]. *)
Definition substr_from (str : string_view) (pos : nat) : option string_view :=
  if decide (length str < pos) then None else Some (drop pos str).

(** ** [std::from_chars] for [double]

    [Parser::set_value] delegates number parsing to the standard library's
    [std::from_chars(first, last, value)] with the default
    [chars_format::general].  The function is not part of the header; it is
    modelled here after its specification in the C++ standard
    ([charconv.from.chars]): the longest prefix of the input that matches
    the pattern of [strtod] in the C locale is converted, a leading plus
    sign and leading white space are not accepted, the exponent part is
    optional.  No match is [invalid_argument]; a match whose value does not
    fit the type is [result_out_of_range]; in both cases [value] is left
    untouched.  The conversion rounds to nearest, ties to even. *)
Module charconv.

(** [std::errc]; [errc_none] is the value-initialised [std::errc()]. *)
Inductive errc : Set := errc_none | invalid_argument | result_out_of_range.

#[global] Instance errc_eq_dec : EqDecision errc.
Proof. solve_decision. Defined.

(** [std::from_chars_result]; [ptr] is counted from [first]. *)
Record from_chars_result : Set := { ptr : nat; ec : errc }.

Definition double : Set := spec_float.

Definition is_digit (c : ascii) : bool :=
  (48 <=? nat_of_ascii c) && (nat_of_ascii c <=? 57).

Definition is_alpha (c : ascii) : bool :=
  ((65 <=? nat_of_ascii c) && (nat_of_ascii c <=? 90))
  || ((97 <=? nat_of_ascii c) && (nat_of_ascii c <=? 122)).

Definition to_lower (c : ascii) : ascii :=
  if (65 <=? nat_of_ascii c) && (nat_of_ascii c <=? 90)
  then ascii_of_nat (nat_of_ascii c + 32) else c.

(** The longest prefix whose characters satisfy [f], and what follows. *)
Fixpoint span (f : ascii -> bool) (s : string_view) : string_view * string_view :=
  match s with
  | c :: s' =>
      if f c then let '(d, r) := span f s' in (c :: d, r) else ([], s)
  | [] => ([], [])
  end.

Definition digit_value (c : ascii) : Z := Z.of_nat (nat_of_ascii c - 48).

Definition decimal_value (ds : string_view) : Z :=
  fold_left (fun acc c => (10 * acc + digit_value c)%Z) ds 0%Z.

(** Case-insensitive test that [s] starts with the lower-case word [kw]. *)
Definition starts_with_ci (kw : string) (s : string_view) : bool :=
  bool_decide (to_lower <$> take (length (sv kw)) s = sv kw).

(** What a matched subject sequence denotes: [m * 10^e] with [0 <= m],
    an infinity, or a NaN. *)
Inductive numeral : Set :=
| Decimal (m e : Z)
| Infinity
| NaN.

(** The exponent part [e|E], an optional sign, one digit or more: its value
    and its length, [(0, 0)] when there is none. *)
Definition scan_exponent (s : string_view) : Z * nat :=
  match s with
  | c :: s1 =>
      if bool_decide (to_lower c = "e"%char) then
        let '(neg, s2, k) :=
          match s1 with
          | "-"%char :: s2 => (true, s2, 1)
          | "+"%char :: s2 => (false, s2, 1)
          | _ => (false, s1, 0)
          end in
        let '(ds, _) := span is_digit s2 in
        match ds with
        | [] => (0%Z, 0)
        | _ :: _ =>
            ((if neg then - decimal_value ds else decimal_value ds)%Z,
             1 + k + length ds)
        end
      else (0%Z, 0)
  | [] => (0%Z, 0)
  end.

(** Digits with an optional radix point (a digit on one side of it at
    least), then the optional exponent part. *)
Definition scan_decimal (s : string_view) : option (numeral * nat) :=
  let '(ip, r1) := span is_digit s in
  let '(fp, r2, k) :=
    match r1 with
    | "."%char :: r => let '(fp, r2) := span is_digit r in (fp, r2, 1)
    | _ => ([], r1, 0)
    end in
  match ip ++ fp with
  | [] => None
  | ds =>
      let '(e, ke) := scan_exponent r2 in
      Some (Decimal (decimal_value ds) (e - Z.of_nat (length fp)),
            length ip + k + length fp + ke)
  end.

(** [inf], [infinity], [nan] and [nan(n-char-sequence)], in any case. *)
Definition scan_special (s : string_view) : option (numeral * nat) :=
  if starts_with_ci "infinity" s then Some (Infinity, 8)
  else if starts_with_ci "inf" s then Some (Infinity, 3)
  else if starts_with_ci "nan" s then
    match drop 3 s with
    | "("%char :: r =>
        let '(ncs, r') :=
          span (fun c => is_digit c || is_alpha c || bool_decide (c = "_"%char)) r in
        match r' with
        | ")"%char :: _ => Some (NaN, 3 + 1 + length ncs + 1)
        | _ => Some (NaN, 3)
        end
    | _ => Some (NaN, 3)
    end
  else None.

(** The subject sequence: an optional minus sign, then a number. *)
Definition scan (s : string_view) : option (bool * numeral * nat) :=
  let '(neg, s1, k) :=
    match s with
    | "-"%char :: s1 => (true, s1, 1)
    | _ => (false, s, 0)
    end in
  match scan_decimal s1 with
  | Some (n, len) => Some (neg, n, k + len)
  | None =>
      match scan_special s1 with
      | Some (n, len) => Some (neg, n, k + len)
      | None => None
      end
  end.

(** The binary64 nearest to [m * 10^e], ties to even; an infinity when the
    value is too large, a zero when it is too small. *)
Definition round_decimal (neg : bool) (m e : Z) : double :=
  match m with
  | Zpos mp =>
      if (0 <=? e)%Z
      then binary_round 53 1024 neg (Z.to_pos (Zpos mp * 10 ^ e)) 0
      else SFdiv 53 1024 (S754_finite neg mp 0)
                         (S754_finite false (Z.to_pos (10 ^ (- e))) 0)
  | _ => S754_zero neg
  end.

(** [std::from_chars(first, last, value)] on the view [[first, last)]:
    the result and the new content of [value]. *)
Definition from_chars (str : string_view) (value : double)
  : from_chars_result * double :=
  match scan str with
  | None => ({| ptr := 0; ec := invalid_argument |}, value)
  | Some (neg, Decimal m e, len) =>
      match round_decimal neg m e with
      | S754_infinity _ => ({| ptr := len; ec := result_out_of_range |}, value)
      | S754_zero s =>
          if bool_decide (m = 0%Z) then ({| ptr := len; ec := errc_none |}, S754_zero s)
          else ({| ptr := len; ec := result_out_of_range |}, value)
      | d => ({| ptr := len; ec := errc_none |}, d)
      end
  | Some (neg, Infinity, len) =>
      ({| ptr := len; ec := errc_none |}, S754_infinity neg)
  | Some (neg, NaN, len) =>
      ({| ptr := len; ec := errc_none |}, S754_nan)
  end.

(** Whether a text opens with a number: after an optional minus sign, a
    digit, a radix point with a digit after it, or [inf] or [nan] in any
    case. *)
Definition has_number_prefix (s : string_view) : bool :=
  let s1 := match s with "-"%char :: s1 => s1 | _ => s end in
  match s1 with
  | c :: s2 =>
      is_digit c
      || (bool_decide (c = "."%char)
          && match s2 with d :: _ => is_digit d | [] => false end)
      || starts_with_ci "inf" s1 || starts_with_ci "nan" s1
  | [] => false
  end.

(** The characters that can carry a number on when they come right after
    it: a digit, the radix point, [e] or [E] of an exponent, [i] or [I] of
    [infinity] after [inf], and the parenthesis after [nan]. *)
Definition continues_number (c : ascii) : bool :=
  is_digit c || bool_decide (c = "."%char)
  || bool_decide (to_lower c = "e"%char)
  || bool_decide (to_lower c = "i"%char) || bool_decide (c = "("%char).

End charconv.

(** ** Namespace [flag] *)
Module flag.

(** [enum Type : uint8_t { String, Number, Bool }] *)
Inductive Type_ : Set := String | Number | Bool.

#[global] Instance Type_eq_dec : EqDecision Type_.
Proof. solve_decision. Defined.

(** [struct Result]; its members default to [true] and two empty views. *)
Record Result : Type := {
  ok : bool;
  flag_id : string_view;
  error : string_view;
}.

(** [Result{}] *)
Definition Result_default : Result :=
  {| ok := true; flag_id := []; error := [] |}.

(** [using FlagData = std::variant<std::string_view, double, bool>] *)
Inductive FlagData : Type :=
| data_string (s : string_view)
| data_double (d : charconv.double)
| data_bool (b : bool).

(** [struct Flag].  The callback [fn] is left out of the record: [parse]
    never reads it, and [call], which does, takes the callbacks beside the
    flags. *)
Record Flag : Type := {
  name : string_view;
  description : string_view;
  data : FlagData;
  type : Type_;
  aliases : list string_view;
  triggered : bool;
}.

(** The two assignments the parser makes through a [Flag&]. *)
Definition with_data (d : FlagData) (f : Flag) : Flag :=
  {| name := name f; description := description f; data := d;
     type := type f; aliases := aliases f; triggered := triggered f |}.

Definition with_triggered (b : bool) (f : Flag) : Flag :=
  {| name := name f; description := description f; data := data f;
     type := type f; aliases := aliases f; triggered := b |}.

(** [using FlagTable = std::unordered_map<std::string_view, Flag*>] and
    [using Flags = std::list<Flag>] *)
Abbreviation FlagTable := (gmap string_view nat).
Abbreviation Flags := (list Flag).

(** [struct Options] *)
Record Options : Type := {
  flag_prefix : string_view;
  separator : string_view;
  strict_flags : bool;
}.

Definition Options_default : Options :=
  {| flag_prefix := sv "-"; separator := sv "="; strict_flags := true |}.

(** [class Parser]: its five data members. *)
Record Parser : Type := {
  m_flags : Flags;
  m_table : FlagTable;
  m_options : Options;
  m_args : list string_view;
  m_flagless : list string_view;
}.

(** [Parser(View args, Options options)] *)
Definition Parser_new (args : list string_view) (options : Options) : Parser :=
  {| m_flags := []; m_table := ∅; m_options := options;
     m_args := args; m_flagless := [] |}.

Definition with_flags (fs : Flags) (p : Parser) : Parser :=
  {| m_flags := fs; m_table := m_table p; m_options := m_options p;
     m_args := m_args p; m_flagless := m_flagless p |}.

Definition with_table (t : FlagTable) (p : Parser) : Parser :=
  {| m_flags := m_flags p; m_table := t; m_options := m_options p;
     m_args := m_args p; m_flagless := m_flagless p |}.

Definition with_flagless (l : list string_view) (p : Parser) : Parser :=
  {| m_flags := m_flags p; m_table := m_table p; m_options := m_options p;
     m_args := m_args p; m_flagless := l |}.

(** [m_table.emplace(key, ptr)]: inserts unless the key is present. *)
Definition emplace (key : string_view) (ptr : nat) (t : FlagTable) : FlagTable :=
  match t !! key with
  | Some _ => t
  | None => <[key := ptr]> t
  end.

(** [Parser::set]: the flag goes to the back of [m_flags]; its name, then
    each alias in turn, is emplaced with the address of the stored copy. *)
Definition set (flag : Flag) (p : Parser) : Parser :=
  let f := length (m_flags p) in
  with_table
    (foldl (fun t alias => emplace alias f t)
           (emplace (name flag) f (m_table p)) (aliases flag))
    (with_flags (m_flags p ++ [flag]) p).

(** [Parser::get] *)
Definition get (p : Parser) (id : string_view) : option nat :=
  m_table p !! id.

(** The loop of [Parser::is_flag]: [n] iterations are left, [i] is the
    loop variable. *)
Fixpoint is_flag_loop (n i : nat) (str prefix : string_view) : bool :=
  match n with
  | 0 => true
  | S n' =>
      if decide (str !! i = prefix !! i)
      then is_flag_loop n' (S i) str prefix
      else false
  end.

(** [Parser::is_flag] *)
Definition is_flag (options : Options) (str : string_view) : bool :=
  let size := length (flag_prefix options) in
  if decide (length str ≤ size) then false
  else is_flag_loop size 0 str (flag_prefix options).

(** The inner loop of [Parser::parse_flag],
    [for (j = i; j < sep.size(); j++, i++) if (str[i] != sep[j]) found = false;]
    with [n] iterations left; it returns [i], [j] and [found]. *)
Fixpoint sep_loop (n : nat) (str sep : string_view) (i j : nat) (found : bool)
  : option (nat * nat * bool) :=
  match n with
  | 0 => Some (i, j, found)
  | S n' =>
      c ← str !! i;
      d ← sep !! j;
      sep_loop n' str sep (S i) (S j) (if decide (c = d) then found else false)
  end.

(** The outer loop of [Parser::parse_flag].  The body moves [i] forward,
    so the loop runs [str.size() - i] times at most; [fuel] is that bound
    (lemma [parse_flag_loop_fuel]: it is never used up). *)
Fixpoint parse_flag_loop (fuel : nat) (str sep : string_view) (i : nat)
  : option (nat * bool) :=
  if decide (i < length str) then
    match fuel with
    | 0 => None
    | S fuel' =>
        c ← str !! i;
        s0 ← sep !! 0;
        if decide (c = s0) then
          '(i', j, found) ← sep_loop (length sep - i) str sep i i true;
          if found : bool then Some (j, true)
          else parse_flag_loop fuel' str sep (S i')
        else parse_flag_loop fuel' str sep (S i)
    end
  else Some (length str, false).

(** [Parser::parse_flag] *)
Definition parse_flag (options : Options) (str : string_view) (offset : nat)
  : option (nat * bool) :=
  parse_flag_loop (length str - offset) str (separator options) offset.

(** [Parser::set_value]: whether the value was set, and the flag after the
    call.  A [Bool] flag meets no [case] and is only marked triggered. *)
Definition set_value (str : string_view) (flag : Flag) : bool * Flag :=
  match type flag with
  | String => (true, with_triggered true (with_data (data_string str) flag))
  | Number =>
      let '(result, value) := charconv.from_chars str (S754_zero false) in
      if decide (charconv.ec result ≠ charconv.errc_none) then (false, flag)
      else (true, with_triggered true (with_data (data_double value) flag))
  | Bool => (true, with_triggered true flag)
  end.

Definition invalid_flag_id (id : string_view) : Result :=
  {| ok := false; flag_id := id; error := sv "invalid flag id used" |}.

(** [fail_result] of [Parser::parse] *)
Definition fail_result (id : string_view) : Result :=
  {| ok := false; flag_id := id; error := sv "could not set flag value" |}.

(** The loop of [Parser::parse] on [m_args[a..]], the arguments from the
    loop variable [a] on.  Looking ahead, [m_args[++a]], takes the next
    argument off the list as well.  [set_value] works on the flag in
    place: what it leaves in the flag is in [m_flags] whether it returns
    [true] or [false]. *)
Fixpoint parse_from (args : list string_view) (p : Parser)
  : option (Result * Parser) :=
  match args with
  | [] => Some (Result_default, p)
  | arg :: rest =>
      if negb (is_flag (m_options p) arg)
      then parse_from rest (with_flagless (m_flagless p ++ [arg]) p)
      else
        let prefix_end := length (flag_prefix (m_options p)) in
        '(sep_start, found_sep) ← parse_flag (m_options p) arg prefix_end;
        id ← substr arg prefix_end (sep_start - prefix_end);
        match get p id with
        | None =>
            if strict_flags (m_options p)
            then Some (invalid_flag_id id, p)
            else parse_from rest p
        | Some ptr =>
            flag ← m_flags p !! ptr;
            if decide (type flag = Bool) then
              parse_from rest
                (with_flags
                   (<[ptr := with_triggered true (with_data (data_bool true) flag)]>
                      (m_flags p)) p)
            else if found_sep && bool_decide (S sep_start < length arg) then
              value_str ← substr_from arg (S sep_start);
              let '(set_ok, flag') := set_value value_str flag in
              let p' := with_flags (<[ptr := flag']> (m_flags p)) p in
              if set_ok : bool
              then parse_from rest p'
              else Some (fail_result id, p')
            else
              match rest with
              | value_str :: rest' =>
                  let '(set_ok, flag') := set_value value_str flag in
                  let p' := with_flags (<[ptr := flag']> (m_flags p)) p in
                  if set_ok : bool
                  then parse_from rest' p'
                  else Some (fail_result id, p')
              | [] => Some (fail_result id, p)
              end
        end
  end.

(** [Parser::parse] *)
Definition parse (p : Parser) : option (Result * Parser) :=
  parse_from (m_args p) p.

(** [Parser::flags], [Parser::table], [Parser::args], [Parser::options] *)
Definition flags (p : Parser) : Flags := m_flags p.
Definition table (p : Parser) : FlagTable := m_table p.
Definition args (p : Parser) : list string_view := m_flagless p.
Definition options (p : Parser) : Options := m_options p.

(** *** Vocabulary for the statements

    The three definitions below name parts of the body of [parse], so
    that statements can refer to them; [parse_from] itself is written
    out in full above and does not use them. *)

(** What [parse] computes for a flag-shaped argument before it consults
    the table: the candidate id, with the position and the verdict that
    [parse_flag] returned. *)
Definition tokenize (options : Options) (arg : string_view)
  : option (string_view * nat * bool) :=
  let prefix_end := length (flag_prefix options) in
  '(sep_start, found_sep) ← parse_flag options arg prefix_end;
  id ← substr arg prefix_end (sep_start - prefix_end);
  Some (id, sep_start, found_sep).

(** The test [found_sep && ++sep_start < arg.size()]. *)
Definition has_inline_value (arg : string_view) (sep_start : nat)
    (found_sep : bool) : bool :=
  found_sep && bool_decide (S sep_start < length arg).

(** The value text of a flag that is not a [Bool], with the arguments
    left once it is taken: the rest of the argument after the separator,
    or else the next argument, or else nothing. *)
Definition value_source (arg : string_view) (sep_start : nat)
    (found_sep : bool) (rest : list string_view)
  : option (string_view * list string_view) :=
  if has_inline_value arg sep_start found_sep
  then Some (drop (S sep_start) arg, rest)
  else match rest with
       | next :: rest' => Some (next, rest')
       | [] => None
       end.

(** The keys under which [set] files a flag. *)
Definition keys (f : Flag) : list string_view := name f :: aliases f.

(** A chain [parser.set(f1).set(f2)...]. *)
Definition set_all (fs : list Flag) (p : Parser) : Parser :=
  foldl (fun q f => set f q) p fs.

(** [flag->data = ...; flag->triggered = true] through the pointer [ptr]. *)
Definition store (ptr : nat) (f : Flag) (p : Parser) : Parser :=
  with_flags (<[ptr := f]> (m_flags p)) p.

(** One turn of the loop of [parse] on the argument [arg], with [rest]
    after it: the loop either goes on ([continue], or the end of the
    body) with the arguments still to read, or [parse] returns. *)
Inductive outcome : Type :=
| Continue (rest : list string_view) (p : Parser)
| Return (r : Result) (p : Parser).

Definition iteration (arg : string_view) (rest : list string_view)
    (p : Parser) : option outcome :=
  if negb (is_flag (m_options p) arg)
  then Some (Continue rest (with_flagless (m_flagless p ++ [arg]) p))
  else
    '(id, sep_start, found_sep) ← tokenize (m_options p) arg;
    match get p id with
    | None =>
        Some (if strict_flags (m_options p)
              then Return (invalid_flag_id id) p
              else Continue rest p)
    | Some ptr =>
        flag ← m_flags p !! ptr;
        if decide (type flag = Bool) then
          Some (Continue rest
                  (store ptr (with_triggered true
                                (with_data (data_bool true) flag)) p))
        else
          match value_source arg sep_start found_sep rest with
          | Some (value_str, rest') =>
              let '(set_ok, flag') := set_value value_str flag in
              Some (if set_ok : bool
                    then Continue rest' (store ptr flag' p)
                    else Return (fail_result id) (store ptr flag' p))
          | None => Some (Return (fail_result id) p)
          end
    end.

Definition resume (o : outcome) : option (Result * Parser) :=
  match o with
  | Continue rest p => parse_from rest p
  | Return r p => Some (r, p)
  end.

(** What a turn can do to the parser: the table, the options and the
    argument vector stay; either the positional list grows by the
    current argument, which is then not flag-shaped, or it stays too. *)
Definition turn_effect (arg : string_view) (p p' : Parser) : Prop :=
  m_table p' = m_table p ∧ m_options p' = m_options p ∧
  m_args p' = m_args p ∧ length (m_flags p') = length (m_flags p) ∧
  (m_flagless p' = m_flagless p ∨
   (is_flag (m_options p) arg = false ∧ m_flags p' = m_flags p ∧
    m_flagless p' = m_flagless p ++ [arg])).

(** The run comes to the argument at position [i]: the arguments before
    it are read without a failure, and none of them is left waiting for
    a value. *)
Definition reaches (args : list string_view) (p : Parser) (i : nat) : bool :=
  match parse_from (take i args) p with
  | Some (r, _) => ok r
  | None => false
  end.

(** The arguments the run comes to that are not flag-shaped, in the
    order of the argument vector. *)
Definition positional (args : list string_view) (p : Parser)
  : list string_view :=
  concat (imap (λ i arg,
                  if reaches args p i && negb (is_flag (m_options p) arg)
                  then [arg] else []) args).

(** *** Invariants of the parser *)

(** The alternative a [FlagData] holds, [data.index()], under the name of
    the [Type] with the same number: the alternatives of the variant and
    the enumerators come in the same order. *)
Definition data_index (d : FlagData) : Type_ :=
  match d with
  | data_string _ => String
  | data_double _ => Number
  | data_bool _ => Bool
  end.

(** The flag holds the alternative its type announces, so that
    [std::get] at that type does not throw. *)
Definition well_typed (f : Flag) : Prop := data_index (data f) = type f.

(** What is declared of a flag, as opposed to what [parse] writes. *)
Definition same_declaration (f g : Flag) : Prop :=
  name f = name g ∧ description f = description g ∧
  type f = type g ∧ aliases f = aliases g.

(** Every pointer in the table points into [m_flags]. *)
Definition table_in_range (p : Parser) : Prop :=
  ∀ key ptr, m_table p !! key = Some ptr → ptr < length (m_flags p).

(** Flag by flag: the declaration stays, a triggered flag stays
    triggered, a flag that is not triggered afterwards was not written
    to, and a flag that held a value of its type still does. *)
Definition flagwise (p p' : Parser) : Prop :=
  Forall2 (λ f f',
             same_declaration f f' ∧
             (triggered f = true → triggered f' = true) ∧
             (triggered f' = false → f' = f) ∧
             (well_typed f → well_typed f'))
          (m_flags p) (m_flags p').

(** Two parsers with the same table and the same options, whose flags
    are declared alike. *)
Definition alike (p q : Parser) : Prop :=
  m_table q = m_table p ∧ m_options q = m_options p ∧
  Forall2 same_declaration (m_flags p) (m_flags q).

(** The same turn taken by two parsers: the argument goes to both
    positional lists, or nothing changes, or the same value is written
    to the flag at the same position. *)
Definition same_turn (arg : string_view) (p p1 q q1 : Parser) : Prop :=
  (p1 = with_flagless (m_flagless p ++ [arg]) p ∧
   q1 = with_flagless (m_flagless q ++ [arg]) q) ∨
  (p1 = p ∧ q1 = q) ∨
  ∃ ptr fp fq d,
    m_flags p !! ptr = Some fp ∧ m_flags q !! ptr = Some fq ∧
    p1 = store ptr (with_triggered true (with_data d fp)) p ∧
    q1 = store ptr (with_triggered true (with_data d fq)) q.

(** *** [Parser::to_string] *)

(** What one turn of the loop of [to_string] appends to [output]. *)
Definition to_string_line (options : Options) (flag : Flag) : string_view :=
  flag_prefix options ++ name flag ++ ["009"; "009"]%char
    ++ description flag ++ ["010"]%char.

(** [Parser::to_string], with [output +=] for each piece in turn. *)
Definition to_string (p : Parser) : string_view :=
  foldl (λ output flag,
           ((((output ++ flag_prefix (m_options p)) ++ name flag)
               ++ ["009"; "009"]%char) ++ description flag) ++ ["010"]%char)
        [] (m_flags p).

(** *** [Parser::call]

    [FlagFn] is a pointer to a function from [Flag&] to [Result]: a
    callback is taken for what it returns and what it leaves in the flag
    it was handed.  The member
    [fn] cannot sit in the record [Flag] (a [Flag] would hold functions
    on [Flag]); the callbacks are kept beside [m_flags], position by
    position, [None] for a null [fn]. *)
Abbreviation FlagFn := (Flag → Result * Flag).

(** The loop of [Parser::call] on the flags from some position on, with
    their callbacks: the result, and the flags after the calls. *)
Fixpoint call_loop (fns : list (option FlagFn)) (flags : Flags)
  : Result * Flags :=
  match flags with
  | [] => (Result_default, [])
  | flag :: flags' =>
      match (if triggered flag then mjoin (head fns) else None) with
      | Some fn =>
          let '(result, flag') := fn flag in
          if ok result then
            let '(r, flags'') := call_loop (tail fns) flags' in
            (r, flag' :: flags'')
          else (result, flag' :: flags')
      | None =>
          let '(r, flags'') := call_loop (tail fns) flags' in
          (r, flag :: flags'')
      end
  end.

(** [Parser::call] *)
Definition call (fns : list (option FlagFn)) (p : Parser) : Result * Parser :=
  let '(r, flags') := call_loop fns (m_flags p) in
  (r, with_flags flags' p).

(** *** Parsers used as examples *)
Module examples.

Definition dashes (sep : string) (strict : bool) : Options :=
  {| flag_prefix := sv "--"; separator := sv sep; strict_flags := strict |}.

Definition name_flag : Flag :=
  {| name := sv "name"; description := sv "a string";
     data := data_string (sv "nothing set"); type := String;
     aliases := [sv "n"]; triggered := false |}.

Definition num_flag : Flag :=
  {| name := sv "num"; description := sv "a number";
     data := data_double (S754_zero false); type := Number;
     aliases := []; triggered := false |}.

Definition verbose_flag : Flag :=
  {| name := sv "verbose"; description := sv "a switch";
     data := data_bool false; type := Bool;
     aliases := [sv "v"]; triggered := false |}.

(** The parser of the examples: three flags, one of each type. *)
Definition parser (options : Options) (args : list string) : Parser :=
  set_all [name_flag; num_flag; verbose_flag]
          (Parser_new (sv <$> args) options).

(** The binary64 nearest to 3.14, [0x40091EB851EB851F]. *)
Definition d3_14 : charconv.double :=
  S754_finite false 7070651414971679 (-51).

End examples.

(** *** Callbacks used as examples *)
Module callbacks.

(** A callback that reports success, with a note nobody reads, and
    leaves a mark in the flag. *)
Definition accept (flag : Flag) : Result * Flag :=
  ({| ok := true; flag_id := name flag; error := sv "seen" |},
   with_data (data_string (sv "seen")) flag).

(** A callback that fails and leaves the flag alone. *)
Definition reject (flag : Flag) : Result * Flag :=
  ({| ok := false; flag_id := name flag; error := sv "rejected" |}, flag).

(** The three flags of the examples after a run that triggered the
    first and the last. *)
Definition triggered_parser : Parser :=
  with_flags [with_triggered true examples.name_flag; examples.num_flag;
              with_triggered true examples.verbose_flag]
             (examples.parser (examples.dashes "=" true) []).

End callbacks.

(** ** The tokenizer: [is_flag] and [parse_flag] *)

Lemma is_flag_loop_spec n i str prefix :
  is_flag_loop n i str prefix = true ↔
  ∀ k, i ≤ k < i + n → str !! k = prefix !! k.
Proof.
  revert i. induction n as [|n IH]; intros i; simpl.
  - split; [intros _ k ?; lia | done].
  - destruct (decide (str !! i = prefix !! i)) as [Heq|Hne].
    + rewrite IH. split.
      * intros H k Hk. destruct (decide (k = i)) as [->|]; [done|].
        apply H. lia.
      * intros H k Hk. apply H. lia.
    + split; [done|]. intros H. exfalso. apply Hne, H. lia.
Qed.

Lemma is_flag_spec o str :
  is_flag o str = true ↔
  length (flag_prefix o) < length str ∧
  ∀ i, i < length (flag_prefix o) → str !! i = flag_prefix o !! i.
Proof.
  unfold is_flag. destruct (decide _) as [Hle|Hgt].
  - split; [done|]. intros [? _]. lia.
  - rewrite is_flag_loop_spec. split.
    + intros H. split; [lia|]. intros i Hi. apply H. lia.
    + intros [_ H] k Hk. apply H. lia.
Qed.

Lemma is_flag_prefixed o s :
  s ≠ [] → is_flag o (flag_prefix o ++ s) = true.
Proof.
  intros Hs. apply is_flag_spec. split.
  - rewrite length_app. destruct s; [done|]. simpl. lia.
  - intros i Hi. by rewrite lookup_app_l.
Qed.

Lemma sep_loop_index n str sep i j found i' j' found' :
  sep_loop n str sep i j found = Some (i', j', found') →
  i' = i + n ∧ j' = j + n.
Proof.
  revert i j found. induction n as [|n IH]; intros i j found; simpl.
  - intros [= <- <- <-]. lia.
  - destruct (str !! i); simpl; [|done].
    destruct (sep !! j); simpl; [|done].
    intros H%IH. lia.
Qed.

(** The fuel of the outer loop is never used up: any two amounts that
    cover the characters left give the same result. *)
Lemma parse_flag_loop_fuel fuel1 fuel2 str sep i :
  length str - i ≤ fuel1 → length str - i ≤ fuel2 →
  parse_flag_loop fuel1 str sep i = parse_flag_loop fuel2 str sep i.
Proof.
  revert fuel2 i. induction fuel1 as [|fuel1 IH]; intros fuel2 i H1 H2.
  - destruct fuel2; simpl; destruct (decide (i < length str)); try done; lia.
  - destruct fuel2 as [|fuel2]; simpl;
      destruct (decide (i < length str)) as [Hi|Hi]; try done; [lia|].
    destruct (str !! i) as [c|]; simpl; [|done].
    destruct (sep !! 0) as [s0|]; simpl; [|done].
    destruct (decide (c = s0)).
    + destruct (sep_loop _ _ _ _ _ _) as [[[i' j] found]|] eqn:Hloop;
        simpl; [|done].
      destruct found; [done|].
      apply sep_loop_index in Hloop as [-> _]. apply IH; lia.
    + apply IH; lia.
Qed.

Lemma parse_flag_loop_ge fuel str sep i s f :
  parse_flag_loop fuel str sep i = Some (s, f) → i `min` length str ≤ s.
Proof.
  revert i. induction fuel as [|fuel IH]; intros i; simpl;
    destruct (decide (i < length str)) as [Hi|Hi];
    try (intros [= <- <-]; lia).
  destruct (str !! i) as [c|]; simpl; [|done].
  destruct (sep !! 0) as [s0|]; simpl; [|done].
  destruct (decide (c = s0)).
  - destruct (sep_loop _ _ _ _ _ _) as [[[i' j] found]|] eqn:Hloop;
      simpl; [|done].
    apply sep_loop_index in Hloop as [-> ->].
    destruct found; [intros [= <- <-]; lia|]. intros H%IH. lia.
  - intros H%IH. lia.
Qed.

(** [sep_start - prefix_end] does not wrap around. *)
Lemma parse_flag_ge_offset o str offset s f :
  offset ≤ length str →
  parse_flag o str offset = Some (s, f) → offset ≤ s.
Proof. intros Hle H%parse_flag_loop_ge. lia. Qed.

(** From a position at or beyond the length of the separator the inner
    loop has nothing to compare: the scan stops at the first character
    equal to [sep[0]]. *)
Lemma parse_flag_loop_found fuel sep c a b i :
  sep !! 0 = Some c → i ≤ length a → c ∉ drop i a →
  length sep ≤ length a → length (a ++ c :: b) - i ≤ fuel →
  parse_flag_loop fuel (a ++ c :: b) sep i = Some (length a, true).
Proof.
  intros Hc. revert i.
  induction fuel as [|fuel IH]; intros i Hi Hnot Hsep Hfuel;
    rewrite length_app in Hfuel; simpl in Hfuel; [lia|].
  simpl. rewrite length_app. simpl.
  destruct (decide (i < length a + S (length b))); [|lia].
  destruct (decide (i = length a)) as [->|Hne].
  - rewrite list_lookup_middle by done. simpl. rewrite Hc. simpl.
    rewrite decide_True by done.
    replace (length sep - length a) with 0 by lia. done.
  - assert (Hlt : i < length a) by lia.
    destruct (lookup_lt_is_Some_2 a i Hlt) as [x Hx].
    rewrite lookup_app_l by done. rewrite Hx. simpl. rewrite Hc. simpl.
    assert (x ≠ c).
    { intros ->. apply Hnot. apply list_elem_of_lookup. exists 0.
      by rewrite lookup_drop, Nat.add_0_r. }
    rewrite decide_False by done. apply IH; [lia| |done|].
    + intros Hin. apply Hnot.
      apply list_elem_of_lookup in Hin as [k Hk].
      apply list_elem_of_lookup. exists (S k).
      rewrite lookup_drop in Hk |- *.
      by replace (i + S k) with (S i + k) by lia.
    + rewrite length_app. simpl. lia.
Qed.

Lemma parse_flag_loop_not_found fuel sep c str i :
  sep !! 0 = Some c → c ∉ drop i str → length str - i ≤ fuel →
  parse_flag_loop fuel str sep i = Some (length str, false).
Proof.
  intros Hc. revert i. induction fuel as [|fuel IH]; intros i Hnot Hfuel;
    simpl; destruct (decide (i < length str)) as [Hi|Hi]; try done; [lia|].
  destruct (lookup_lt_is_Some_2 str i Hi) as [x Hx].
  rewrite Hx. simpl. rewrite Hc. simpl.
  assert (x ≠ c).
  { intros ->. apply Hnot. apply list_elem_of_lookup. exists 0.
    by rewrite lookup_drop, Nat.add_0_r. }
  rewrite decide_False by done. apply IH; [|lia].
  intros Hin. apply Hnot.
  apply list_elem_of_lookup in Hin as [k Hk].
  apply list_elem_of_lookup. exists (S k).
  rewrite lookup_drop in Hk |- *.
  by replace (i + S k) with (S i + k) by lia.
Qed.

(** The candidate id of [prefix ++ name ++ c :: value], where [c] opens the
    separator and does not occur in [name]: the scan stops at that [c]
    provided the separator is no longer than what precedes it. *)
Lemma tokenize_separator o c sep' name value :
  separator o = c :: sep' → c ∉ name →
  length (separator o) ≤ length (flag_prefix o) + length name →
  tokenize o (flag_prefix o ++ name ++ c :: value)
  = Some (name, length (flag_prefix o) + length name, true).
Proof.
  intros Hsep Hnot Hlen. unfold tokenize, parse_flag.
  rewrite (assoc_L (++)).
  rewrite (parse_flag_loop_found _ _ c); rewrite ?length_app; try lia.
  - simpl. unfold substr. rewrite decide_False.
    + rewrite <- (assoc_L (++)), drop_app_length.
      replace (_ + _ - _) with (length name) by lia.
      by rewrite take_app_length.
    + rewrite !length_app. lia.
  - by rewrite Hsep.
  - by rewrite drop_app_length.
Qed.

Lemma tokenize_no_separator o c sep' name :
  separator o = c :: sep' → c ∉ name →
  tokenize o (flag_prefix o ++ name)
  = Some (name, length (flag_prefix o) + length name, false).
Proof.
  intros Hsep Hnot. unfold tokenize, parse_flag.
  rewrite (parse_flag_loop_not_found _ _ c); try lia.
  - simpl. unfold substr. rewrite length_app.
    rewrite decide_False by lia. rewrite drop_app_length.
    replace (_ + _ - _) with (length name) by lia.
    by rewrite firstn_all.
  - by rewrite Hsep.
  - by rewrite drop_app_length.
Qed.

(** The tokenizer returns whenever its reads are in range, which they are
    for a separator that is not empty and not longer than the argument. *)
Lemma sep_loop_defined n str sep i j found :
  n = 0 ∨ (i + n ≤ length str ∧ j + n ≤ length sep) →
  is_Some (sep_loop n str sep i j found).
Proof.
  revert i j found. induction n as [|n IH]; intros i j found Hn; simpl; [done|].
  destruct Hn as [|[Hi Hj]]; [done|].
  destruct (lookup_lt_is_Some_2 str i) as [c ->]; [lia|].
  destruct (lookup_lt_is_Some_2 sep j) as [d ->]; [lia|].
  simpl. apply IH. right. lia.
Qed.

Lemma parse_flag_loop_defined fuel str sep i :
  sep ≠ [] → length sep ≤ length str → length str - i ≤ fuel →
  is_Some (parse_flag_loop fuel str sep i).
Proof.
  intros Hsep Hlen. revert i.
  induction fuel as [|fuel IH]; intros i Hfuel; simpl;
    destruct (decide (i < length str)) as [Hi|Hi]; try done; [lia|].
  destruct (lookup_lt_is_Some_2 str i Hi) as [c ->].
  destruct (lookup_lt_is_Some_2 sep 0) as [s0 ->];
    [destruct sep; [done|simpl; lia]|].
  simpl. destruct (decide (c = s0)); [|apply IH; lia].
  destruct (sep_loop_defined (length sep - i) str sep i i true)
    as [[[i' j] found] Hloop]; [lia|].
  rewrite Hloop. simpl. destruct found; [done|].
  apply sep_loop_index in Hloop as [-> _]. apply IH. lia.
Qed.

Lemma tokenize_defined o arg :
  is_flag o arg = true → separator o ≠ [] →
  length (separator o) ≤ length arg →
  is_Some (tokenize o arg).
Proof.
  intros [Hlt _]%is_flag_spec Hsep Hlen. unfold tokenize, parse_flag.
  destruct (parse_flag_loop_defined (length arg - length (flag_prefix o))
              arg (separator o) (length (flag_prefix o)))
    as [[sep_start found_sep] ->]; [done..|].
  simpl. unfold substr. by rewrite decide_False by lia.
Qed.

(** ** The loop of [parse], one turn at a time *)

Lemma substr_from_in_range str pos :
  pos ≤ length str → substr_from str pos = Some (drop pos str).
Proof. intros H. unfold substr_from. by rewrite decide_False by lia. Qed.

(** [set_value] returns [false] before it writes anything. *)
Lemma set_value_false str flag flag' :
  set_value str flag = (false, flag') → flag' = flag.
Proof.
  unfold set_value. destruct (type flag); [done| |done].
  destruct (charconv.from_chars _ _) as [result value].
  by destruct (decide _); intros [= <-].
Qed.

(** Writing back what a flag holds changes nothing. *)
Lemma store_same ptr flag p :
  m_flags p !! ptr = Some flag → store ptr flag p = p.
Proof.
  intros Hptr. unfold store, with_flags. rewrite list_insert_id by done.
  by destruct p.
Qed.

(** [parse_from] is [iteration] followed by the rest of the loop. *)
Lemma parse_from_cons arg rest p :
  parse_from (arg :: rest) p = iteration arg rest p ≫= resume.
Proof.
  simpl. unfold iteration, tokenize.
  destruct (is_flag (m_options p) arg); simpl; [|done].
  destruct (parse_flag _ _ _) as [[sep_start found_sep]|]; simpl; [|done].
  destruct (substr _ _ _) as [id|]; simpl; [|done].
  destruct (get p id) as [ptr|]; [|by destruct (strict_flags _)].
  destruct (m_flags p !! ptr) as [flag|]; simpl; [|done].
  destruct (decide (type flag = Bool)); [done|].
  unfold value_source, has_inline_value.
  destruct found_sep; simpl.
  - case_bool_decide as Hlt; simpl.
    + rewrite substr_from_in_range by lia. simpl.
      by destruct (set_value _ flag) as [[] flag'].
    + destruct rest as [|next rest']; [done|].
      by destruct (set_value _ flag) as [[] flag'].
  - destruct rest as [|next rest']; [done|].
    by destruct (set_value _ flag) as [[] flag'].
Qed.

(** A turn takes the argument after the current one off the list, or
    leaves the list alone. *)
Lemma value_source_rest arg sep_start found_sep rest value_str rest' :
  value_source arg sep_start found_sep rest = Some (value_str, rest') →
  rest' = rest ∨ rest = value_str :: rest'.
Proof.
  unfold value_source. destruct (has_inline_value _ _ _).
  - intros [= <- <-]. by left.
  - destruct rest; [done|]. intros [= <- <-]. by right.
Qed.

Lemma value_source_app arg sep_start found_sep rest more value_str rest' :
  value_source arg sep_start found_sep rest = Some (value_str, rest') →
  value_source arg sep_start found_sep (rest ++ more)
  = Some (value_str, rest' ++ more).
Proof.
  unfold value_source. destruct (has_inline_value _ _ _).
  - by intros [= <- <-].
  - destruct rest; [done|]. by intros [= <- <-].
Qed.

Lemma store_effect arg ptr f p : turn_effect arg p (store ptr f p).
Proof.
  unfold turn_effect, store. simpl. rewrite length_insert. tauto.
Qed.

Lemma iteration_continue arg rest p rest' p' :
  iteration arg rest p = Some (Continue rest' p') →
  turn_effect arg p p' ∧
  (rest' = rest ∨
   ∃ next, rest = next :: rest' ∧ is_flag (m_options p) arg = true).
Proof.
  unfold iteration.
  destruct (is_flag (m_options p) arg) eqn:Hflag; simpl.
  - destruct (tokenize _ _) as [[[id sep_start] found_sep]|]; simpl; [|done].
    destruct (get p id) as [ptr|].
    + destruct (m_flags p !! ptr) as [flag|]; simpl; [|done].
      destruct (decide (type flag = Bool)).
      * intros [= <- <-]. split; [apply store_effect|by left].
      * destruct (value_source _ _ _ _) as [[value_str rest'']|] eqn:Hsrc;
          [|done].
        destruct (set_value _ flag) as [[] flag']; [|done].
        intros [= <- <-]. split; [apply store_effect|].
        apply value_source_rest in Hsrc as [->| ->]; [by left|].
        right. by exists value_str.
    + destruct (strict_flags _); [done|]. intros [= <- <-].
      split; [|by left]. unfold turn_effect. tauto.
  - intros [= <- <-]. split; [|by left].
    unfold turn_effect. simpl. tauto.
Qed.

(** [parse] returns from inside the loop with a failure only, and with
    the parser as the turn found it. *)
Lemma iteration_return arg rest p r p' :
  iteration arg rest p = Some (Return r p') → ok r = false ∧ p' = p.
Proof.
  unfold iteration.
  destruct (is_flag (m_options p) arg); simpl; [|done].
  destruct (tokenize _ _) as [[[id sep_start] found_sep]|]; simpl; [|done].
  destruct (get p id) as [ptr|].
  - destruct (m_flags p !! ptr) as [flag|] eqn:Hptr; simpl; [|done].
    destruct (decide (type flag = Bool)); [done|].
    destruct (value_source _ _ _ _) as [[value_str rest'']|].
    + destruct (set_value _ flag) as [[] flag'] eqn:Hset; [done|].
      apply set_value_false in Hset as ->.
      rewrite store_same by done. by intros [= <- <-].
    + by intros [= <- <-].
  - destruct (strict_flags _); [|done]. by intros [= <- <-].
Qed.

(** A turn that goes on does not depend on the arguments it leaves. *)
Lemma iteration_app arg rest more p rest' p' :
  iteration arg rest p = Some (Continue rest' p') →
  iteration arg (rest ++ more) p = Some (Continue (rest' ++ more) p').
Proof.
  unfold iteration.
  destruct (is_flag (m_options p) arg); simpl; [|by intros [= <- <-]].
  destruct (tokenize _ _) as [[[id sep_start] found_sep]|]; simpl; [|done].
  destruct (get p id) as [ptr|].
  - destruct (m_flags p !! ptr) as [flag|]; simpl; [|done].
    destruct (decide (type flag = Bool)); [by intros [= <- <-]|].
    destruct (value_source _ _ _ rest) as [[value_str rest'']|] eqn:Hsrc;
      [|done].
    rewrite (value_source_app _ _ _ _ more _ _ Hsrc).
    destruct (set_value _ flag) as [[] flag']; [|done].
    by intros [= <- <-].
  - destruct (strict_flags _); [done|]. by intros [= <- <-].
Qed.

(** Induction on the turns of the loop: a property of runs that holds
    for the empty argument list, and for a run as soon as it holds for
    what is left after the first turn, holds for every run. *)
Lemma parse_from_ind (P : list string_view → Parser → Prop) :
  (∀ p, P [] p) →
  (∀ arg rest p,
     (∀ rest' p', iteration arg rest p = Some (Continue rest' p') → P rest' p') →
     P (arg :: rest) p) →
  ∀ args p, P args p.
Proof.
  intros Hnil Hcons args.
  induction (Nat.lt_wf_0_projected length args) as [args _ IH].
  destruct args as [|arg rest]; [done|].
  intros p. apply Hcons. intros rest' p' Hit. apply IH.
  apply iteration_continue in Hit as [_ [->|(next & -> & _)]]; simpl; lia.
Qed.

Lemma parse_from_frame args p r p' :
  parse_from args p = Some (r, p') →
  m_table p' = m_table p ∧ m_options p' = m_options p ∧
  m_args p' = m_args p ∧ length (m_flags p') = length (m_flags p).
Proof.
  revert args p. apply (parse_from_ind (λ args p, _ → _)).
  - by intros p [= _ <-].
  - intros arg rest p IH. rewrite parse_from_cons.
    destruct (iteration arg rest p) as [[rest' p1|r1 p1]|] eqn:Hit;
      simpl; [| |done].
    + intros H%IH; [|done].
      apply iteration_continue in Hit as [(? & ? & ? & ? & _) _].
      destruct H as (-> & -> & -> & ->). done.
    + intros [= <- <-]. by apply iteration_return in Hit as [_ ->].
Qed.

(** A run that reads all of [pre] without failing is the beginning of
    the run on [pre ++ more]. *)
Lemma parse_from_app pre more p p1 :
  parse_from pre p = Some (Result_default, p1) →
  parse_from (pre ++ more) p = parse_from more p1.
Proof.
  revert pre p. apply (parse_from_ind (λ pre p, _ → _)).
  - by intros p [= <-].
  - intros arg rest p IH. simpl app. rewrite !parse_from_cons.
    destruct (iteration arg rest p) as [[rest' p2|r1 p2]|] eqn:Hit;
      simpl; [| |done].
    + rewrite (iteration_app _ _ more _ _ _ Hit). simpl. by apply IH.
    + intros [= -> ->]. by apply iteration_return in Hit as [? _].
Qed.

(** The only result with [ok] set is the one at the end of the loop. *)
Lemma parse_from_ok args p r p' :
  parse_from args p = Some (r, p') → ok r = true → r = Result_default.
Proof.
  revert args p. apply (parse_from_ind (λ args p, _ → _ → _)).
  - by intros p [= <- _].
  - intros arg rest p IH. rewrite parse_from_cons.
    destruct (iteration arg rest p) as [[rest' p1|r1 p1]|] eqn:Hit;
      simpl; [by apply IH| |done].
    intros [= <- _] Hok. apply iteration_return in Hit as [Hno _]. congruence.
Qed.

(** ** Runs of [parse] that reach a given argument *)

(** When the run on the arguments before [arg] fails nowhere, [parse]
    comes to [arg] with the parser that run leaves, and goes on from
    there. *)
Lemma parse_reaches p pre arg rest p1 :
  m_args p = pre ++ arg :: rest →
  parse_from pre p = Some (Result_default, p1) →
  parse p = iteration arg rest p1 ≫= resume ∧
  m_table p1 = m_table p ∧ m_options p1 = m_options p.
Proof.
  intros Hargs Hpre. unfold parse.
  rewrite Hargs, (parse_from_app _ _ _ _ Hpre), parse_from_cons.
  by apply parse_from_frame in Hpre as (-> & -> & _).
Qed.

Lemma iteration_positional arg rest p :
  is_flag (m_options p) arg = false →
  iteration arg rest p
  = Some (Continue rest (with_flagless (m_flagless p ++ [arg]) p)).
Proof. intros H. unfold iteration. by rewrite H. Qed.

Lemma iteration_flag arg rest p id sep_start found_sep :
  is_flag (m_options p) arg = true →
  tokenize (m_options p) arg = Some (id, sep_start, found_sep) →
  iteration arg rest p =
  match get p id with
  | None =>
      Some (if strict_flags (m_options p)
            then Return (invalid_flag_id id) p
            else Continue rest p)
  | Some ptr =>
      flag ← m_flags p !! ptr;
      if decide (type flag = Bool) then
        Some (Continue rest
                (store ptr (with_triggered true
                              (with_data (data_bool true) flag)) p))
      else
        match value_source arg sep_start found_sep rest with
        | Some (value_str, rest') =>
            let '(set_ok, flag') := set_value value_str flag in
            Some (if set_ok : bool
                  then Continue rest' (store ptr flag' p)
                  else Return (fail_result id) (store ptr flag' p))
        | None => Some (Return (fail_result id) p)
        end
  end.
Proof. intros Hflag Htok. unfold iteration. by rewrite Hflag, Htok. Qed.

(** The turn on an argument that resolves to a flag which is not a
    [Bool]. *)
Lemma parse_value_flag p pre arg rest p1 id sep_start found_sep ptr flag :
  m_args p = pre ++ arg :: rest →
  parse_from pre p = Some (Result_default, p1) →
  is_flag (m_options p) arg = true →
  tokenize (m_options p) arg = Some (id, sep_start, found_sep) →
  get p id = Some ptr →
  m_flags p1 !! ptr = Some flag →
  type flag ≠ Bool →
  parse p =
  match value_source arg sep_start found_sep rest with
  | Some (value_str, rest') =>
      let '(set_ok, flag') := set_value value_str flag in
      if set_ok : bool
      then parse_from rest' (store ptr flag' p1)
      else Some (fail_result id, p1)
  | None => Some (fail_result id, p1)
  end.
Proof.
  intros Hargs Hpre Hflag Htok Hget Hptr Hty.
  destruct (parse_reaches _ _ _ _ _ Hargs Hpre) as (-> & Htab & Hopt).
  rewrite (iteration_flag _ _ _ id sep_start found_sep)
    by (by rewrite Hopt).
  unfold get in *. rewrite Htab, Hget, Hptr. simpl.
  rewrite decide_False by done.
  destruct (value_source _ _ _ _) as [[value_str rest']|]; [|done].
  destruct (set_value _ flag) as [[] flag'] eqn:Hset; [done|]. simpl.
  apply set_value_false in Hset as ->. by rewrite store_same.
Qed.

(** ** Unknown flags *)

(** C4: in strict mode, when the run comes to a flag-shaped argument
    whose candidate id is not in the table, [parse] returns
    [{false, id, "invalid flag id used"}] there and then: the result does
    not depend on the arguments that follow, and the parser is the one
    the run had built before that argument, positional list and flags
    included. *)
Theorem strict_unknown_flag_fails p pre arg rest p1 id sep_start found_sep :
  m_args p = pre ++ arg :: rest →
  parse_from pre p = Some (Result_default, p1) →
  strict_flags (m_options p) = true →
  is_flag (m_options p) arg = true →
  tokenize (m_options p) arg = Some (id, sep_start, found_sep) →
  get p id = None →
  parse p
  = Some ({| ok := false; flag_id := id; error := sv "invalid flag id used" |},
          p1).
Proof.
  intros Hargs Hpre Hstrict Hflag Htok Hget.
  destruct (parse_reaches _ _ _ _ _ Hargs Hpre) as (-> & Htab & Hopt).
  rewrite (iteration_flag _ _ _ id sep_start found_sep)
    by (by rewrite Hopt).
  unfold get in *. by rewrite Htab, Hget, Hopt, Hstrict.
Qed.

Lemma strict_unknown_flag_fails_witness :
  let p := examples.parser (examples.dashes "=" true)
             ["pos"; "--verbose"; "--bogus=1"; "--name"; "x"] in
  ∃ p1,
    parse_from (sv <$> ["pos"; "--verbose"]) p = Some (Result_default, p1) ∧
    parse p = Some (invalid_flag_id (sv "bogus"), p1) ∧
    m_flagless p1 = [sv "pos"] ∧
    triggered <$> m_flags p1 = [false; false; true].
Proof.
  intros p. eexists. split; [vm_compute; reflexivity|]. split.
  - apply (strict_unknown_flag_fails p (sv <$> ["pos"; "--verbose"])
             (sv "--bogus=1") (sv <$> ["--name"; "x"]) _ (sv "bogus") 7 true);
      vm_compute; reflexivity.
  - split; reflexivity.
Defined.


(** C5: with strict mode off, a flag-shaped argument whose candidate id
    is not in the table is passed over: the turn changes neither the
    positional list nor any flag and leaves all the arguments after it to
    the loop, so [parse] is the run on those arguments; when there are
    none, or when that run reads them all, the result is [{true}]. *)
Theorem lenient_unknown_flag_skipped p pre arg rest p1 id sep_start found_sep :
  m_args p = pre ++ arg :: rest →
  parse_from pre p = Some (Result_default, p1) →
  strict_flags (m_options p) = false →
  is_flag (m_options p) arg = true →
  tokenize (m_options p) arg = Some (id, sep_start, found_sep) →
  get p id = None →
  iteration arg rest p1 = Some (Continue rest p1) ∧
  parse p = parse_from rest p1 ∧
  (rest = [] → parse p = Some (Result_default, p1)) ∧
  (∀ p2, parse_from rest p1 = Some (Result_default, p2) →
         parse p = Some ({| ok := true; flag_id := []; error := [] |}, p2)).
Proof.
  intros Hargs Hpre Hstrict Hflag Htok Hget.
  destruct (parse_reaches _ _ _ _ _ Hargs Hpre) as (Hparse & Htab & Hopt).
  assert (Hit : iteration arg rest p1 = Some (Continue rest p1)).
  { rewrite (iteration_flag _ _ _ id sep_start found_sep)
      by (by rewrite Hopt).
    unfold get in *. by rewrite Htab, Hget, Hopt, Hstrict. }
  rewrite Hit in Hparse. simpl in Hparse.
  repeat split; [done..| |].
  - intros ->. by rewrite Hparse.
  - intros p2 Hrest. by rewrite Hparse.
Qed.

Lemma lenient_unknown_flag_skipped_witness :
  let p := examples.parser (examples.dashes "=" false)
             ["pos"; "--bogus"; "tail"] in
  ∃ p1 p2,
    parse_from [sv "pos"] p = Some (Result_default, p1) ∧
    parse p = Some (Result_default, p2) ∧
    m_flagless p2 = sv <$> ["pos"; "tail"] ∧
    m_flags p2 = m_flags p.
Proof.
  intros p.
  opose proof* (lenient_unknown_flag_skipped p [sv "pos"] (sv "--bogus")
                  [sv "tail"] _ (sv "bogus") 7 false)
    as (_ & Hparse & _); [vm_compute; reflexivity..|].
  eexists. eexists. split; [reflexivity|]. split.
  - rewrite Hparse. vm_compute; reflexivity.
  - split; reflexivity.
Defined.

(** ** Flags that resolve *)

(** C7: when the run comes to an argument that resolves to a [Bool]
    flag, the turn writes through the pointer: the flag then holds [true]
    and is marked triggered, whatever it held before, and nothing else of
    the flag or of the parser changes.  The turn reads neither what
    follows a separator in the argument nor the next argument, and the
    loop goes on with the very next argument. *)
Theorem bool_flag_takes_no_value
    p pre arg rest p1 id sep_start found_sep ptr flag :
  m_args p = pre ++ arg :: rest →
  parse_from pre p = Some (Result_default, p1) →
  is_flag (m_options p) arg = true →
  tokenize (m_options p) arg = Some (id, sep_start, found_sep) →
  get p id = Some ptr →
  m_flags p1 !! ptr = Some flag →
  type flag = Bool →
  ∃ flag' p2,
    data flag' = data_bool true ∧ triggered flag' = true ∧
    same_declaration flag flag' ∧
    m_flags p2 = <[ptr := flag']> (m_flags p1) ∧
    m_flags p2 !! ptr = Some flag' ∧
    m_table p2 = m_table p1 ∧ m_options p2 = m_options p1 ∧
    m_args p2 = m_args p1 ∧ m_flagless p2 = m_flagless p1 ∧
    iteration arg rest p1 = Some (Continue rest p2) ∧
    parse p = parse_from rest p2.
Proof.
  intros Hargs Hpre Hflag Htok Hget Hptr Hty.
  destruct (parse_reaches _ _ _ _ _ Hargs Hpre) as (Hparse & Htab & Hopt).
  set (flag' := with_triggered true (with_data (data_bool true) flag)).
  assert (Hit : iteration arg rest p1 = Some (Continue rest (store ptr flag' p1))).
  { rewrite (iteration_flag _ _ _ id sep_start found_sep)
      by (by rewrite Hopt).
    unfold get in *. rewrite Htab, Hget, Hptr. simpl.
    by rewrite decide_True by done. }
  exists flag', (store ptr flag' p1).
  split_and!; try done.
  - simpl. apply list_lookup_insert_eq. by eapply lookup_lt_Some.
  - by rewrite Hparse, Hit.
Qed.

(** The example of the claim: [--verbose extra] leaves [extra] in the
    positional list; so does [--verbose=no extra], whose inline text is
    not read either.  The flag, [false] and not triggered before the run,
    holds [true] and is triggered after it. *)
Lemma bool_flag_takes_no_value_witness :
  let p := examples.parser (examples.dashes "=" true) ["--verbose"; "extra"] in
  let q := examples.parser (examples.dashes "=" true) ["--verbose=no"; "extra"] in
  let written :=
    {| name := sv "verbose"; description := sv "a switch";
       data := data_bool true; type := Bool;
       aliases := [sv "v"]; triggered := true |} in
  (data <$> m_flags p !! 2 = Some (data_bool false) ∧
   triggered <$> m_flags p !! 2 = Some false) ∧
  (∃ flag' p2,
     data flag' = data_bool true ∧ triggered flag' = true ∧
     m_flags p2 !! 2 = Some flag' ∧ m_flagless p2 = [] ∧
     parse p = parse_from [sv "extra"] p2) ∧
  (∃ flag' q2,
     data flag' = data_bool true ∧ triggered flag' = true ∧
     m_flags q2 !! 2 = Some flag' ∧ m_flagless q2 = [] ∧
     parse q = parse_from [sv "extra"] q2) ∧
  (∃ p', parse p = Some (Result_default, p') ∧
         m_flags p' = [examples.name_flag; examples.num_flag; written] ∧
         m_flagless p' = [sv "extra"]) ∧
  (∃ q', parse q = Some (Result_default, q') ∧
         m_flags q' = [examples.name_flag; examples.num_flag; written] ∧
         m_flagless q' = [sv "extra"]).
Proof.
  intros p q written. split; [split; reflexivity|]. split; [|split].
  - destruct (bool_flag_takes_no_value p [] (sv "--verbose") [sv "extra"] p
                (sv "verbose") 9 false 2 examples.verbose_flag)
      as (f & p2 & Hd & Ht & _ & _ & Hl & _ & _ & _ & Hless & _ & Hp);
      [vm_compute; reflexivity..|].
    by exists f, p2.
  - destruct (bool_flag_takes_no_value q [] (sv "--verbose=no") [sv "extra"] q
                (sv "verbose") 9 true 2 examples.verbose_flag)
      as (g & q2 & Hd & Ht & _ & _ & Hl & _ & _ & _ & Hless & _ & Hq);
      [vm_compute; reflexivity..|].
    by exists g, q2.
  - split; eexists; (split; [vm_compute; reflexivity|split; reflexivity]).
Defined.

(** C6: when the run comes to an argument that resolves to a flag which
    is not a [Bool], and the argument has no inline value (no separator
    was found, or nothing follows it in the argument), then: if an
    argument follows, that whole argument is the value text, flag-shaped
    or not, and the loop goes on after it, two arguments further; if none
    follows, [parse] returns [{false, id, "could not set flag value"}]. *)
Theorem lookahead_value
    p pre arg rest p1 id sep_start found_sep ptr flag :
  m_args p = pre ++ arg :: rest →
  parse_from pre p = Some (Result_default, p1) →
  is_flag (m_options p) arg = true →
  tokenize (m_options p) arg = Some (id, sep_start, found_sep) →
  get p id = Some ptr →
  m_flags p1 !! ptr = Some flag →
  type flag ≠ Bool →
  found_sep = false ∨ length arg ≤ S sep_start →
  (∀ next rest', rest = next :: rest' →
     value_source arg sep_start found_sep rest = Some (next, rest') ∧
     parse p =
     (if (set_value next flag).1
      then parse_from rest' (store ptr (set_value next flag).2 p1)
      else Some (fail_result id, p1))) ∧
  (rest = [] →
     parse p
     = Some ({| ok := false; flag_id := id;
                error := sv "could not set flag value" |}, p1)).
Proof.
  intros Hargs Hpre Hflag Htok Hget Hptr Hty Hinline.
  rewrite (parse_value_flag _ _ _ _ _ _ _ _ _ _
             Hargs Hpre Hflag Htok Hget Hptr Hty).
  assert (Hno : has_inline_value arg sep_start found_sep = false).
  { unfold has_inline_value. destruct Hinline as [->|Hle]; [done|].
    rewrite bool_decide_eq_false_2 by lia. by destruct found_sep. }
  unfold value_source. rewrite Hno. split.
  - intros next rest' ->. split; [done|].
    by destruct (set_value next flag) as [[] flag'].
  - by intros ->.
Qed.

Lemma lookahead_value_witness :
  let p := examples.parser (examples.dashes "=" true)
             ["--name"; "--verbose"; "pos"] in
  let q := examples.parser (examples.dashes "=" true) ["pos"; "--num"] in
  (∃ p',
     parse p = Some (Result_default, p') ∧
     data <$> m_flags p' !! 0 = Some (data_string (sv "--verbose")) ∧
     triggered <$> m_flags p' = [true; false; false] ∧
     m_flagless p' = [sv "pos"]) ∧
  (∃ q1,
     parse_from [sv "pos"] q = Some (Result_default, q1) ∧
     parse q = Some (fail_result (sv "num"), q1)).
Proof.
  intros p q. split.
  - opose proof* (lookahead_value p [] (sv "--name")
                    (sv <$> ["--verbose"; "pos"]) p (sv "name") 6 false 0
                    examples.name_flag) as [Hnext _];
      [vm_compute; reflexivity..|done|by left|].
    destruct (Hnext _ _ eq_refl) as [_ Hparse].
    eexists. split; [rewrite Hparse; vm_compute; reflexivity|].
    split; [reflexivity|]. split; reflexivity.
  - eexists. split; [vm_compute; reflexivity|].
    opose proof* (lookahead_value q [sv "pos"] (sv "--num") [] _ (sv "num")
                    5 false 1 examples.num_flag) as [_ Hlast];
      [vm_compute; reflexivity..|done|by left|].
    by apply Hlast.
Defined.


(** ** What [std::from_chars] takes for a number *)

(** [span] cuts the text in two: what it takes satisfies the test, what
    it leaves does not open with such a character. *)
Lemma span_spec f s d r :
  charconv.span f s = (d, r) →
  s = d ++ r ∧ Forall (λ x, f x = true) d ∧ (∀ x r', r = x :: r' → f x = false).
Proof.
  revert d r. induction s as [|x s IH]; intros d r; simpl.
  - intros [= <- <-]. by repeat split.
  - destruct (f x) eqn:Hx.
    + destruct (charconv.span f s) as [d' r'] eqn:Hs. intros [= <- <-].
      destruct (IH _ _ eq_refl) as (-> & Hd & Hr).
      split; [done|]. split; [by constructor|done].
    + intros [= <- <-]. split; [done|]. split; [constructor|].
      by intros ? ? [= <- <-].
Qed.

(** A character that fails the test, put after the text, ends the span
    where the text ended it. *)
Lemma span_app f s d r c rest :
  charconv.span f s = (d, r) → f c = false →
  charconv.span f (s ++ c :: rest) = (d, r ++ c :: rest).
Proof.
  revert d r. induction s as [|x s IH]; intros d r; simpl.
  - intros [= <- <-] Hc. by rewrite Hc.
  - destruct (f x).
    + destruct (charconv.span f s) as [d' r'] eqn:Hs. intros [= <- <-] Hc.
      by rewrite (IH _ _ eq_refl Hc).
    + by intros [= <- <-] _.
Qed.

(** A span that ended inside the text is not moved by what is put after
    the text. *)
Lemma span_app_stopped f s d x r t :
  charconv.span f s = (d, x :: r) →
  charconv.span f (s ++ t) = (d, x :: r ++ t).
Proof.
  revert d. induction s as [|y s IH]; intros d; simpl.
  - by intros [= <-].
  - destruct (f y).
    + destruct (charconv.span f s) as [d' r'] eqn:Hs. intros [= <- ->].
      by rewrite (IH _ eq_refl).
    + by intros [= <- <- <-].
Qed.

Lemma span_length f s d r :
  charconv.span f s = (d, r) → length s = length d + length r.
Proof.
  intros H. destruct (span_spec _ _ _ _ H) as (-> & _). by rewrite length_app.
Qed.

(** The three places where the scanner looks for one given character. *)
Lemma sign_match (s1 : string_view) :
  match s1 with
  | "-"%char :: s2 => (true, s2, 1)
  | "+"%char :: s2 => (false, s2, 1)
  | _ => (false, s1, 0)
  end
  = if decide (head s1 = Some "-"%char) then (true, tail s1, 1)
    else if decide (head s1 = Some "+"%char) then (false, tail s1, 1)
    else (false, s1, 0).
Proof.
  destruct s1 as [|y s2]; [done|].
  destruct y as [[] [] [] [] [] [] [] []]; reflexivity.
Qed.

Lemma point_match (r1 : string_view) :
  match r1 with
  | "."%char :: r =>
      let '(fp, r2) := charconv.span charconv.is_digit r in (fp, r2, 1)
  | _ => ([], r1, 0)
  end
  = if decide (head r1 = Some "."%char)
    then let '(fp, r2) := charconv.span charconv.is_digit (tail r1) in
         (fp, r2, 1)
    else ([], r1, 0).
Proof.
  destruct r1 as [|y r]; [done|].
  destruct y as [[] [] [] [] [] [] [] []]; reflexivity.
Qed.

Lemma minus_match (s : string_view) :
  match s with
  | "-"%char :: s1 => (true, s1, 1)
  | _ => (false, s, 0)
  end
  = if decide (head s = Some "-"%char) then (true, tail s, 1)
    else (false, s, 0).
Proof.
  destruct s as [|y r]; [done|].
  destruct y as [[] [] [] [] [] [] [] []]; reflexivity.
Qed.

(** An exponent part that reaches the end of the text is read the same
    when a character that is no digit, and no [e] either, follows. *)
Lemma scan_exponent_app r e c rest :
  charconv.scan_exponent r = (e, length r) →
  charconv.is_digit c = false → charconv.to_lower c ≠ "e"%char →
  charconv.scan_exponent (r ++ c :: rest) = (e, length r).
Proof.
  intros Hr Hd He. destruct r as [|x s1].
  - simpl in *. by rewrite bool_decide_eq_false_2.
  - revert Hr. simpl app. unfold charconv.scan_exponent.
    destruct (bool_decide _); [|by intros [= _ ?]].
    rewrite !sign_match. destruct s1 as [|y s2]; [by intros [= _ ?]|].
    cbn [app head tail].
    destruct (decide (Some y = Some "-"%char));
      [|destruct (decide (Some y = Some "+"%char))];
      (destruct (charconv.span charconv.is_digit _) as [ds r'] eqn:Hs at 1;
       pose proof (span_app _ _ _ _ c rest Hs Hd) as Hs'; cbn [app] in Hs';
       by rewrite Hs').
Qed.

Lemma paren_match (s : string_view) (f : string_view → option (charconv.numeral * nat)) d :
  match s with
  | "("%char :: r => f r
  | _ => d
  end
  = if decide (head s = Some "("%char) then f (tail s) else d.
Proof.
  destruct s as [|y r]; [done|].
  destruct y as [[] [] [] [] [] [] [] []]; reflexivity.
Qed.

Lemma close_match (s : string_view) (a d : option (charconv.numeral * nat)) :
  match s with
  | ")"%char :: _ => a
  | _ => d
  end
  = if decide (head s = Some ")"%char) then a else d.
Proof.
  destruct s as [|y r]; [done|].
  destruct y as [[] [] [] [] [] [] [] []]; reflexivity.
Qed.

(** Digits, radix point and exponent that reach the end of the text are
    read the same when a character follows that is none of theirs. *)
Lemma scan_decimal_app s n c rest :
  charconv.scan_decimal s = Some (n, length s) →
  charconv.is_digit c = false → c ≠ "."%char →
  charconv.to_lower c ≠ "e"%char →
  charconv.scan_decimal (s ++ c :: rest) = Some (n, length s).
Proof.
  intros Hs Hd Hp He. revert Hs. unfold charconv.scan_decimal.
  destruct (charconv.span charconv.is_digit s) as [ip r1] eqn:Hip.
  rewrite (span_app _ _ _ _ c rest Hip Hd).
  pose proof (span_length _ _ _ _ Hip) as Hlen.
  rewrite !point_match.
  destruct r1 as [|y r]; cbn [app head tail].
  - rewrite decide_False by done.
    rewrite decide_False by (by intros [= ->]).
    destruct (ip ++ []); [done|].
    unfold charconv.scan_exponent. by rewrite bool_decide_eq_false_2.
  - destruct (decide (Some y = Some "."%char)).
    + destruct (charconv.span charconv.is_digit r) as [fp r2] eqn:Hfp.
      rewrite (span_app _ _ _ _ c rest Hfp Hd).
      pose proof (span_length _ _ _ _ Hfp) as Hlen'.
      destruct (ip ++ fp); [done|].
      destruct (charconv.scan_exponent r2) as [ex ke] eqn:Hex.
      intros [= <- Hk].
      assert (ke = length r2) as -> by (simpl in Hlen; lia).
      rewrite (scan_exponent_app _ _ _ _ Hex Hd He). by rewrite <- Hk.
    + destruct (ip ++ []); [done|].
      destruct (charconv.scan_exponent (y :: r)) as [ex ke] eqn:Hex.
      intros [= <- Hk].
      assert (ke = length (y :: r)) as -> by lia.
      pose proof (scan_exponent_app _ _ _ rest Hex Hd He) as Hex'.
      cbn [app] in Hex'. rewrite Hex'. by rewrite <- Hk.
Qed.

(** No digits at all: the text opens neither with a digit nor with a
    radix point and a digit. *)
Lemma scan_decimal_none s :
  charconv.scan_decimal s = None ↔
  match s with
  | c :: s2 =>
      charconv.is_digit c
      || (bool_decide (c = "."%char)
          && match s2 with d :: _ => charconv.is_digit d | [] => false end)
  | [] => false
  end = false.
Proof.
  destruct s as [|c s2]; [done|].
  unfold charconv.scan_decimal.
  destruct (charconv.span charconv.is_digit (c :: s2)) as [ip r1] eqn:Hsp.
  rewrite point_match. revert Hsp. cbn [charconv.span].
  destruct (charconv.is_digit c) eqn:Hc.
  - destruct (charconv.span charconv.is_digit s2) as [d r].
    intros [= <- <-].
    destruct (decide _);
      [destruct (charconv.span charconv.is_digit (tail r)) as [fp r2]|];
      simpl; by destruct (charconv.scan_exponent _).
  - intros [= <- <-]. cbn [head tail].
    destruct (decide (Some c = Some "."%char)) as [[= ->]|Hne].
    + destruct s2 as [|d s3]; [done|]. cbn [charconv.span].
      destruct (charconv.is_digit d) eqn:Hd.
      * destruct (charconv.span charconv.is_digit s3) as [fp r2]. simpl.
        by destruct (charconv.scan_exponent _).
      * done.
    + simpl. rewrite bool_decide_eq_false_2 by (by intros ->). done.
Qed.

Lemma starts_with_ci_length kw s :
  charconv.starts_with_ci kw s = true → length (sv kw) ≤ length s.
Proof.
  unfold charconv.starts_with_ci. rewrite bool_decide_eq_true. intros H.
  apply (f_equal length) in H. rewrite length_fmap, length_take in H. lia.
Qed.

Lemma starts_with_ci_app kw s t :
  length (sv kw) ≤ length s →
  charconv.starts_with_ci kw (s ++ t) = charconv.starts_with_ci kw s.
Proof. intros H. unfold charconv.starts_with_ci. by rewrite take_app_le. Qed.

(** [infinity] opens with [inf]. *)
Lemma starts_with_infinity s :
  charconv.starts_with_ci "infinity" s = true →
  charconv.starts_with_ci "inf" s = true.
Proof.
  unfold charconv.starts_with_ci. rewrite !bool_decide_eq_true.
  destruct s as [|a [|b [|c s]]]; try done.
  change (length (sv "inf")) with 3. change (length (sv "infinity")) with 8.
  cbn [take fmap list_fmap]. intros [= -> -> -> _]. done.
Qed.

(** The first character of [nan]. *)
Lemma starts_with_nan_first s :
  charconv.starts_with_ci "nan" s = true →
  ∃ x s', s = x :: s' ∧ charconv.to_lower x = "n"%char.
Proof.
  unfold charconv.starts_with_ci. rewrite !bool_decide_eq_true.
  destruct s as [|a s]; [done|].
  change (length (sv "nan")) with 3.
  cbn [take fmap list_fmap]. intros [= Ha _]. by exists a, s.
Qed.

(** [scan_special] finds something exactly when the text opens with
    [inf] or with [nan]. *)
Lemma scan_special_none s :
  charconv.scan_special s = None ↔
  charconv.starts_with_ci "inf" s || charconv.starts_with_ci "nan" s = false.
Proof.
  unfold charconv.scan_special. rewrite paren_match.
  destruct (charconv.starts_with_ci "infinity" s) eqn:H8.
  - by rewrite (starts_with_infinity _ H8).
  - destruct (charconv.starts_with_ci "inf" s); [done|].
    destruct (charconv.starts_with_ci "nan" s); [|done].
    destruct (decide _); [|done].
    destruct (charconv.span _ _) as [ncs r']. cbv beta iota.
    rewrite close_match. by destruct (decide _).
Qed.

(** A special value that reaches the end of the text is read the same
    when a character follows that is neither an [i] nor a parenthesis. *)
Lemma scan_special_app s n c rest :
  charconv.scan_special s = Some (n, length s) →
  charconv.to_lower c ≠ "i"%char → c ≠ "("%char →
  charconv.scan_special (s ++ c :: rest) = Some (n, length s).
Proof.
  intros Hs Hi Hp. revert Hs. unfold charconv.scan_special.
  rewrite !paren_match.
  destruct (charconv.starts_with_ci "infinity" s) eqn:H8.
  { intros [= <- Hl].
    rewrite starts_with_ci_app by (by apply starts_with_ci_length).
    by rewrite H8, <- Hl. }
  destruct (charconv.starts_with_ci "inf" s) eqn:H3.
  { intros [= <- Hl].
    rewrite (starts_with_ci_app "inf") by (by apply starts_with_ci_length).
    rewrite H3.
    destruct s as [|a [|b [|d [|? ?]]]]; try discriminate Hl.
    replace (charconv.starts_with_ci "infinity" ([a; b; d] ++ c :: rest))
      with false; [done|].
    symmetry. apply bool_decide_eq_false.
    change (length (sv "infinity")) with 8.
    cbn [app take fmap list_fmap]. by intros [= _ _ _ ? _]. }
  destruct (charconv.starts_with_ci "nan" s) eqn:Hn; [|done].
  pose proof (starts_with_ci_length _ _ Hn) as Hlen.
  rewrite (starts_with_ci_app "inf"), (starts_with_ci_app "nan"), H3, Hn
    by done.
  destruct (starts_with_nan_first _ Hn) as (x & s' & -> & Hx).
  replace (charconv.starts_with_ci "infinity" ((x :: s') ++ c :: rest))
    with false.
  2:{ symmetry. apply bool_decide_eq_false.
      change (length (sv "infinity")) with 8.
      cbn [app take fmap list_fmap]. rewrite Hx. by intros [= ? _]. }
  destruct s' as [|b [|d s']]; try (simpl in Hlen; lia).
  cbn [app drop].
  destruct s' as [|y r]; cbn [app drop head tail].
  - intros [= <-]. rewrite decide_False by (by intros [= ->]). done.
  - destruct (decide (Some y = Some "("%char)); [|by intros [= _ ?]].
    destruct (charconv.span _ r) as [ncs r'] eqn:Hsp.
    cbv beta iota. rewrite close_match.
    destruct (decide (head r' = Some ")"%char)) as [Hh|];
      [|by intros [= _ ?]].
    destruct r' as [|z r'']; [done|]. injection Hh as ->.
    by rewrite (span_app_stopped _ _ _ _ _ (c :: rest) Hsp).
Qed.

(** A number that takes the whole text is read the same when a
    character follows that cannot carry it on. *)
Lemma scan_app s neg n c rest :
  charconv.scan s = Some (neg, n, length s) →
  charconv.continues_number c = false →
  charconv.scan (s ++ c :: rest) = Some (neg, n, length s).
Proof.
  intros Hs Hc.
  unfold charconv.continues_number in Hc.
  rewrite !orb_false_iff, !bool_decide_eq_false in Hc.
  destruct Hc as ((((Hd & Hp) & He) & Hi) & Hpar).
  assert (Hnum : ∀ s1 n1,
    match charconv.scan_decimal s1 with
    | Some r => Some r
    | None => charconv.scan_special s1
    end = Some (n1, length s1) →
    match charconv.scan_decimal (s1 ++ c :: rest) with
    | Some r => Some r
    | None => charconv.scan_special (s1 ++ c :: rest)
    end = Some (n1, length s1)).
  { intros s1 n1.
    destruct (charconv.scan_decimal s1) as [r|] eqn:Hdec.
    - intros [= ->]. by rewrite (scan_decimal_app _ _ _ _ Hdec).
    - intros Hsp.
      assert (charconv.scan_decimal (s1 ++ c :: rest) = None) as ->.
      { apply scan_decimal_none. apply scan_decimal_none in Hdec.
        assert (charconv.scan_special s1 ≠ None) as Hsome
          by (by rewrite Hsp).
        rewrite scan_special_none in Hsome.
        destruct s1 as [|x s2]; [done|]. cbn [app].
        apply orb_false_iff in Hdec as [Hx Hdot]. rewrite Hx. simpl.
        destruct (bool_decide_reflect (x = "."%char)) as [->|]; [|done].
        exfalso. apply Hsome. unfold charconv.starts_with_ci.
        by rewrite !bool_decide_eq_false_2. }
      by apply scan_special_app. }
  revert Hs. unfold charconv.scan. rewrite !minus_match.
  destruct s as [|x s1]; [done|]. cbn [app head tail].
  destruct (decide (Some x = Some "-"%char)).
  - specialize (Hnum s1).
    destruct (charconv.scan_decimal s1) as [[n1 len]|];
      [|destruct (charconv.scan_special s1) as [[n1 len]|]; [|done]];
      intros [= <- <- Hl]; assert (len = length s1) as -> by (simpl in Hl; lia);
      specialize (Hnum _ eq_refl);
      (destruct (charconv.scan_decimal (s1 ++ c :: rest)) as [[? ?]|];
       [by injection Hnum as -> ->|by rewrite Hnum]).
  - specialize (Hnum (x :: s1)). cbn [app] in Hnum.
    destruct (charconv.scan_decimal (x :: s1)) as [[n1 len]|];
      [|destruct (charconv.scan_special (x :: s1)) as [[n1 len]|]; [|done]];
      intros [= <- <- Hl]; simpl in Hl; subst len;
      specialize (Hnum _ eq_refl);
      (destruct (charconv.scan_decimal (x :: s1 ++ c :: rest)) as [[? ?]|];
       [by injection Hnum as -> ->|by rewrite Hnum]).
Qed.

(** [from_chars] that took the whole text takes as much, and gives the
    same value, when a character follows that cannot carry the number
    on. *)
Lemma from_chars_app s c rest value v :
  charconv.from_chars s value
  = ({| charconv.ptr := length s; charconv.ec := charconv.errc_none |}, v) →
  charconv.continues_number c = false →
  charconv.from_chars (s ++ c :: rest) value
  = ({| charconv.ptr := length s; charconv.ec := charconv.errc_none |}, v).
Proof.
  intros Hs Hc. revert Hs. unfold charconv.from_chars.
  destruct (charconv.scan s) as [[[neg n] len]|] eqn:Hscan; [|done].
  intros Hs.
  assert (len = length s) as ->.
  { destruct n; [destruct (charconv.round_decimal _ _ _);
                 try destruct (bool_decide _)|..];
      by injection Hs. }
  by rewrite (scan_app _ _ _ _ _ Hscan Hc).
Qed.

(** [scan] finds nothing exactly when the text opens with no number. *)
Lemma scan_none s :
  charconv.scan s = None ↔ charconv.has_number_prefix s = false.
Proof.
  unfold charconv.scan, charconv.has_number_prefix.
  rewrite minus_match.
  assert (match s with "-"%char :: s1 => s1 | _ => s end
          = if decide (head s = Some "-"%char) then tail s else s) as ->.
  { destruct s as [|y r]; [done|].
    destruct y as [[] [] [] [] [] [] [] []]; reflexivity. }
  assert (Hnum : ∀ s1 : string_view,
    (charconv.scan_decimal s1 = None ∧ charconv.scan_special s1 = None) ↔
    match s1 with
    | c :: s2 =>
        charconv.is_digit c
        || (bool_decide (c = "."%char)
            && match s2 with d :: _ => charconv.is_digit d | [] => false end)
        || charconv.starts_with_ci "inf" s1
        || charconv.starts_with_ci "nan" s1
    | [] => false
    end = false).
  { intros s1. rewrite scan_decimal_none, scan_special_none.
    destruct s1 as [|c s2]; [done|].
    rewrite <- orb_assoc, (orb_false_iff (_ || _)). done. }
  destruct (decide _); rewrite <- Hnum;
    (destruct (charconv.scan_decimal _) as [[? ?]|];
     [|destruct (charconv.scan_special _) as [[? ?]|]]);
    (split; [done|by intros [? ?]]).
Qed.


(** ** Number flags *)

(** [set_value] on a [Number] flag is [std::from_chars]: the flag is
    written when, and only when, no error is reported; where the
    conversion stopped is not looked at. *)
Lemma set_value_number str flag :
  type flag = Number →
  set_value str flag =
  (let '(result, value) := charconv.from_chars str (S754_zero false) in
   if decide (charconv.ec result = charconv.errc_none)
   then (true, with_triggered true (with_data (data_double value) flag))
   else (false, flag)).
Proof.
  intros Hty. unfold set_value. rewrite Hty.
  destruct (charconv.from_chars _ _) as [result value].
  by destruct (decide (charconv.ec result = _)) as [->|];
    [rewrite decide_False by (by intros [])|rewrite decide_True].
Qed.

(** The turn on a [Number] flag whose value text [std::from_chars]
    rejects. *)
Lemma parse_number_failure
    p pre arg rest p1 id sep_start found_sep ptr flag value_str rest' :
  m_args p = pre ++ arg :: rest →
  parse_from pre p = Some (Result_default, p1) →
  is_flag (m_options p) arg = true →
  tokenize (m_options p) arg = Some (id, sep_start, found_sep) →
  get p id = Some ptr →
  m_flags p1 !! ptr = Some flag →
  type flag = Number →
  value_source arg sep_start found_sep rest = Some (value_str, rest') →
  charconv.ec (charconv.from_chars value_str (S754_zero false)).1
    ≠ charconv.errc_none →
  set_value value_str flag = (false, flag) ∧
  parse p = Some (fail_result id, p1).
Proof.
  intros Hargs Hpre Hflag Htok Hget Hptr Hty Hsrc Hec.
  assert (Hset : set_value value_str flag = (false, flag)).
  { rewrite set_value_number by done.
    destruct (charconv.from_chars _ _) as [result value].
    by rewrite decide_False. }
  split; [done|].
  rewrite (parse_value_flag _ _ _ _ _ _ _ _ _ _
             Hargs Hpre Hflag Htok Hget Hptr) by (by rewrite Hty).
  by rewrite Hsrc, Hset.
Qed.

(** C10: when [std::from_chars] rejects the value text of a [Number]
    flag, [set_value] returns [false] without writing to the flag, and
    [parse] returns [{false, id, "could not set flag value"}] with the
    parser as it was when the run came to the argument: the flag holds
    the data and the triggered mark it had before. *)
Theorem failed_number_coercion_leaves_flag
    p pre arg rest p1 id sep_start found_sep ptr flag value_str rest' :
  m_args p = pre ++ arg :: rest →
  parse_from pre p = Some (Result_default, p1) →
  is_flag (m_options p) arg = true →
  tokenize (m_options p) arg = Some (id, sep_start, found_sep) →
  get p id = Some ptr →
  m_flags p1 !! ptr = Some flag →
  type flag = Number →
  value_source arg sep_start found_sep rest = Some (value_str, rest') →
  charconv.ec (charconv.from_chars value_str (S754_zero false)).1
    ≠ charconv.errc_none →
  (set_value value_str flag).2 = flag ∧
  ∃ p', parse p = Some (fail_result id, p') ∧
        m_flags p' = m_flags p1 ∧
        data <$> m_flags p' !! ptr = Some (data flag) ∧
        triggered <$> m_flags p' !! ptr = Some (triggered flag).
Proof.
  intros Hargs Hpre Hflag Htok Hget Hptr Hty Hsrc Hec.
  destruct (parse_number_failure _ _ _ _ _ _ _ _ _ _ _ _
              Hargs Hpre Hflag Htok Hget Hptr Hty Hsrc Hec) as [Hset Hparse].
  split; [by rewrite Hset|].
  exists p1. by rewrite Hptr.
Qed.

(** An earlier [--num=2.5] is still there after [--num abc] failed; and
    the default is, when nothing was set before. *)
Lemma failed_number_coercion_leaves_flag_witness :
  let p := examples.parser (examples.dashes "=" true)
             ["--num=2.5"; "--num"; "abc"; "--verbose"] in
  let q := examples.parser (examples.dashes "=" true) ["--num=abc"] in
  (∃ p',
     parse p = Some (fail_result (sv "num"), p') ∧
     m_flags p' !! 1
     = Some (with_triggered true
               (with_data (data_double (S754_finite false 5629499534213120 (-51)))
                  examples.num_flag))) ∧
  (∃ q', parse q = Some (fail_result (sv "num"), q') ∧
         m_flags q' !! 1 = Some examples.num_flag).
Proof.
  intros p q. split.
  - opose proof* (failed_number_coercion_leaves_flag p [sv "--num=2.5"]
                    (sv "--num") (sv <$> ["abc"; "--verbose"]) _ (sv "num")
                    5 false 1 _ (sv "abc") [sv "--verbose"])
      as [_ (p' & Hparse & Hflags & _)];
      [vm_compute; reflexivity..|by vm_compute|].
    exists p'. split; [done|]. by rewrite Hflags.
  - opose proof* (failed_number_coercion_leaves_flag q [] (sv "--num=abc") []
                    q (sv "num") 5 true 1 examples.num_flag (sv "abc") [])
      as [_ (q' & Hparse & Hflags & _)];
      [vm_compute; reflexivity..|by vm_compute|].
    exists q'. split; [done|]. by rewrite Hflags.
Defined.

(** C2, counterexample: text after the number is no failure.
    [--num=3.14xyz] and [--num=3.14 ] both parse, and store 3.14. *)
Lemma trailing_garbage_is_accepted :
  let stored :=
    with_triggered true
      (with_data (data_double examples.d3_14) examples.num_flag) in
  (∃ p', parse (examples.parser (examples.dashes "=" true) ["--num=3.14xyz"])
         = Some (Result_default, p') ∧ m_flags p' !! 1 = Some stored ∧
         data <$> m_flags p' !! 1 = Some (data_double examples.d3_14) ∧
         triggered <$> m_flags p' !! 1 = Some true) ∧
  (∃ p', parse (examples.parser (examples.dashes "=" true) ["--num=3.14 "])
         = Some (Result_default, p') ∧ m_flags p' !! 1 = Some stored ∧
         data <$> m_flags p' !! 1 = Some (data_double examples.d3_14) ∧
         triggered <$> m_flags p' !! 1 = Some true).
Proof.
  split; eexists; (split; [vm_compute; reflexivity|repeat split]).
Qed.

(** C2, as amended: a [Number] flag takes what [std::from_chars] makes of
    the value text.  When no error is reported the flag holds the value
    and is triggered; when one is, [set_value] returns [false], the flag
    is left as it was, and [parse] returns
    [{false, id, "could not set flag value"}] with [id] as matched.
    [std::from_chars] reports [invalid_argument] exactly for the texts
    that open with no number: [abc], the empty text and every text that
    opens with white space are among them.  The span need not be used
    up: a text that is taken whole is taken the same, with the same
    value, when a character that cannot carry the number on and then
    anything at all follow it; after [3.14] any character but a digit,
    [e] and [E] will do. *)
Theorem number_coercion :
  (∀ str flag, type flag = Number →
     let result := (charconv.from_chars str (S754_zero false)).1 in
     let value := (charconv.from_chars str (S754_zero false)).2 in
     (charconv.ec result = charconv.errc_none →
        (set_value str flag).1 = true ∧
        data (set_value str flag).2 = data_double value ∧
        triggered (set_value str flag).2 = true ∧
        same_declaration flag (set_value str flag).2) ∧
     (charconv.ec result ≠ charconv.errc_none →
        set_value str flag = (false, flag))) ∧
  (∀ str value,
     charconv.has_number_prefix str = false ↔
     charconv.from_chars str value
     = ({| charconv.ptr := 0; charconv.ec := charconv.invalid_argument |},
        value)) ∧
  (∀ c str value, Ascii.is_space c = true →
     charconv.from_chars (c :: str) value
     = ({| charconv.ptr := 0; charconv.ec := charconv.invalid_argument |},
        value)) ∧
  (∀ value,
     charconv.from_chars (sv "abc") value
     = ({| charconv.ptr := 0; charconv.ec := charconv.invalid_argument |},
        value) ∧
     charconv.from_chars [] value
     = ({| charconv.ptr := 0; charconv.ec := charconv.invalid_argument |},
        value)) ∧
  (∀ str c rest value v,
     charconv.from_chars str value
     = ({| charconv.ptr := length str; charconv.ec := charconv.errc_none |},
        v) →
     charconv.continues_number c = false →
     charconv.from_chars (str ++ c :: rest) value
     = ({| charconv.ptr := length str; charconv.ec := charconv.errc_none |},
        v)) ∧
  (∀ c str value,
     charconv.is_digit c = false → charconv.to_lower c ≠ "e"%char →
     charconv.from_chars (sv "3.14" ++ c :: str) value
     = ({| charconv.ptr := 4; charconv.ec := charconv.errc_none |},
        examples.d3_14)) ∧
  (∀ p pre arg rest p1 id sep_start found_sep ptr flag value_str rest',
     m_args p = pre ++ arg :: rest →
     parse_from pre p = Some (Result_default, p1) →
     is_flag (m_options p) arg = true →
     tokenize (m_options p) arg = Some (id, sep_start, found_sep) →
     get p id = Some ptr →
     m_flags p1 !! ptr = Some flag →
     type flag = Number →
     value_source arg sep_start found_sep rest = Some (value_str, rest') →
     let result := (charconv.from_chars value_str (S754_zero false)).1 in
     let value := (charconv.from_chars value_str (S754_zero false)).2 in
     (charconv.ec result ≠ charconv.errc_none →
        parse p
        = Some ({| ok := false; flag_id := id;
                   error := sv "could not set flag value" |}, p1)) ∧
     (charconv.ec result = charconv.errc_none →
        ∃ flag',
          data flag' = data_double value ∧ triggered flag' = true ∧
          same_declaration flag flag' ∧
          m_flags (store ptr flag' p1) !! ptr = Some flag' ∧
          parse p = parse_from rest' (store ptr flag' p1))).
Proof.
  assert (Hset : ∀ str flag, type flag = Number →
     let result := (charconv.from_chars str (S754_zero false)).1 in
     let value := (charconv.from_chars str (S754_zero false)).2 in
     (charconv.ec result = charconv.errc_none →
        (set_value str flag).1 = true ∧
        data (set_value str flag).2 = data_double value ∧
        triggered (set_value str flag).2 = true ∧
        same_declaration flag (set_value str flag).2) ∧
     (charconv.ec result ≠ charconv.errc_none →
        set_value str flag = (false, flag))).
  { intros str flag Hty. unfold set_value. rewrite Hty.
    destruct (charconv.from_chars _ _) as [result value]. simpl. split.
    - intros Hec. by rewrite decide_False by (by intros ?).
    - intros Hec. by rewrite decide_True. }
  split; [exact Hset|]. split; [|split; [|split; [|split; [|split]]]].
  - intros str value. unfold charconv.from_chars. split.
    + intros H. by rewrite (proj2 (scan_none _) H).
    + intros H. apply scan_none.
      destruct (charconv.scan str) as [[[neg n] len]|]; [exfalso|done].
      destruct n; [destruct (charconv.round_decimal _ _ _);
                   try destruct (bool_decide _)|..]; discriminate H.
  - intros c str value Hc.
    destruct c as [[] [] [] [] [] [] [] []];
      vm_compute in Hc; try discriminate Hc; vm_compute; reflexivity.
  - done.
  - intros str c rest value v. apply from_chars_app.
  - intros c str value Hd He.
    destruct c as [[] [] [] [] [] [] [] []];
      vm_compute in Hd; try discriminate Hd;
      first [vm_compute; reflexivity | exfalso; apply He; vm_compute; reflexivity].
  - intros p pre arg rest p1 id sep_start found_sep ptr flag value_str rest'
      Hargs Hpre Hflag Htok Hget Hptr Hty Hsrc. split.
    + intros Hec. by eapply parse_number_failure.
    + intros Hec.
      destruct (Hset value_str flag Hty) as [Hok _].
      destruct (Hok Hec) as (Htrue & Hdata & Htrig & Hdecl).
      exists (set_value value_str flag).2. split_and!; try done.
      * simpl. apply list_lookup_insert_eq. by eapply lookup_lt_Some.
      * rewrite (parse_value_flag _ _ _ _ _ _ _ _ _ _
                   Hargs Hpre Hflag Htok Hget Hptr) by (by rewrite Hty).
        rewrite Hsrc. destruct (set_value value_str flag) as [set_ok flag'].
        simpl in Htrue. by rewrite Htrue.
Qed.

(** On the flag [num] of the examples: [3.14 and more] and [nano] are
    numbers, [ 3.14] is none. *)
Lemma number_coercion_witness :
  let p := examples.parser (examples.dashes "=" true) ["--num"; " 3.14"] in
  let q := examples.parser (examples.dashes "=" true)
             ["--num=3.14 and more"; "pos"] in
  let d := S754_finite false 7070651414971679 (-51) in
  ((set_value (sv "3.14 and more") examples.num_flag).1 = true ∧
   data (set_value (sv "3.14 and more") examples.num_flag).2 = data_double d ∧
   triggered (set_value (sv "3.14 and more") examples.num_flag).2 = true) ∧
  (data (set_value (sv "nano") examples.num_flag).2 = data_double S754_nan ∧
   triggered (set_value (sv "nano") examples.num_flag).2 = true) ∧
  (set_value (sv " 3.14") examples.num_flag = (false, examples.num_flag) ∧
   triggered examples.num_flag = false) ∧
  parse p
  = Some ({| ok := false; flag_id := sv "num";
             error := sv "could not set flag value" |}, p) ∧
  (∃ flag',
     data flag' = data_double d ∧ triggered flag' = true ∧
     m_flags (store 1 flag' q) !! 1 = Some flag' ∧
     parse q = parse_from [sv "pos"] (store 1 flag' q)) ∧
  (∃ q', parse q = Some (Result_default, q') ∧
         m_flags q'
         = [ examples.name_flag;
             {| name := sv "num"; description := sv "a number";
                data := data_double d; type := Number;
                aliases := []; triggered := true |};
             examples.verbose_flag ] ∧
         m_flagless q' = [sv "pos"]) ∧
  set_value (sv "3.14 and more") examples.num_flag
  = (true, {| name := sv "num"; description := sv "a number";
              data := data_double d; type := Number;
              aliases := []; triggered := true |}).
Proof.
  intros p q d.
  destruct number_coercion
    as (Hset & Hprefix & Hspace & _ & Happ & _ & Hparse).
  assert (Hnum : charconv.from_chars (sv "3.14 and more") (S754_zero false)
                 = ({| charconv.ptr := 4; charconv.ec := charconv.errc_none |},
                    d)).
  { apply (Happ (sv "3.14") " "%char (sv "and more"));
      vm_compute; reflexivity. }
  destruct (Hset (sv "3.14 and more") examples.num_flag eq_refl) as [Hok _].
  destruct (Hset (sv "nano") examples.num_flag eq_refl) as [Hnan _].
  destruct (Hset (sv " 3.14") examples.num_flag eq_refl) as [_ Hfail].
  cbv zeta in Hok, Hnan, Hfail. rewrite Hnum in Hok.
  destruct (Hok eq_refl) as (H1 & H2 & H3 & _).
  destruct (Hnan ltac:(vm_compute; reflexivity)) as (_ & H4 & H5 & _).
  split; [by split_and!|]. split; [by split|]. split.
  { split; [|reflexivity].
    apply Hfail. change (sv " 3.14") with (" "%char :: sv "3.14").
    by rewrite Hspace. }
  split.
  { destruct (Hparse p [] (sv "--num") [sv " 3.14"] p (sv "num") 5 false 1
                examples.num_flag (sv " 3.14") []) as [Hno _];
      [vm_compute; reflexivity..|].
    apply Hno. by vm_compute. }
  split.
  { destruct (Hparse q [] (sv "--num=3.14 and more") [sv "pos"] q (sv "num")
                5 true 1 examples.num_flag (sv "3.14 and more") [sv "pos"])
      as [_ Hyes]; [vm_compute; reflexivity..|].
    cbv zeta in Hyes. rewrite Hnum in Hyes.
    destruct (Hyes eq_refl) as (f & Hd & Ht & _ & Hl & Hq).
    by exists f. }
  split; [|vm_compute; reflexivity].
  eexists. split; [vm_compute; reflexivity|split; reflexivity].
Defined.


(** ** The separator *)

(** C1, counterexample: [--name=] alone is a failure, and the flag is not
    triggered. *)
Lemma trailing_separator_fails :
  let p := examples.parser (examples.dashes "=" true) ["--name="] in
  parse p = Some (fail_result (sv "name"), p) ∧
  ok (fail_result (sv "name")) = false ∧
  m_flags p !! 0 = Some examples.name_flag ∧
  triggered examples.name_flag = false.
Proof. split; [vm_compute; reflexivity|]. repeat split. Qed.

(** C1, as amended: for a [String] flag and an argument made of the
    prefix, the name of the flag and a one-character separator with
    nothing after it, where the name holds no separator character and
    prefix and name are not both empty, [parse] finds no inline value.
    It takes the next argument as the value when there is one: the flag
    then holds that text and is marked triggered, and the loop goes on
    after the value.  It returns [{false, name, "could not set flag
    value"}] when there is none, and leaves the flag as it was. *)
Theorem trailing_separator_looks_ahead p pre name c rest p1 ptr flag :
  m_args p = pre ++ (flag_prefix (m_options p) ++ name ++ [c]) :: rest →
  parse_from pre p = Some (Result_default, p1) →
  separator (m_options p) = [c] →
  c ∉ name →
  flag_prefix (m_options p) ++ name ≠ [] →
  get p name = Some ptr →
  m_flags p1 !! ptr = Some flag →
  type flag = String →
  (∀ next rest', rest = next :: rest' →
     ∃ flag',
       data flag' = data_string next ∧ triggered flag' = true ∧
       same_declaration flag flag' ∧
       m_flags (store ptr flag' p1) !! ptr = Some flag' ∧
       m_flagless (store ptr flag' p1) = m_flagless p1 ∧
       parse p = parse_from rest' (store ptr flag' p1)) ∧
  (rest = [] →
     parse p
     = Some ({| ok := false; flag_id := name;
                error := sv "could not set flag value" |}, p1)).
Proof.
  intros Hargs Hpre Hsep Hnot Hne Hget Hptr Hty.
  set (arg := flag_prefix (m_options p) ++ name ++ [c]) in *.
  assert (Hlen : 1 ≤ length (flag_prefix (m_options p)) + length name).
  { rewrite <- length_app.
    destruct (flag_prefix (m_options p) ++ name) eqn:E; [done|simpl; lia]. }
  assert (Htok : tokenize (m_options p) arg
                 = Some (name, length (flag_prefix (m_options p)) + length name,
                         true)).
  { apply (tokenize_separator _ c []); [done..|]. by rewrite Hsep. }
  assert (Hflag : is_flag (m_options p) arg = true).
  { apply is_flag_prefixed. by destruct name. }
  rewrite (parse_value_flag _ _ _ _ _ _ _ _ _ _
             Hargs Hpre Hflag Htok Hget Hptr) by (by rewrite Hty).
  unfold value_source, has_inline_value.
  rewrite bool_decide_eq_false_2
    by (unfold arg; rewrite !length_app; simpl; lia).
  simpl. split.
  - intros next rest' ->. unfold set_value. rewrite Hty.
    exists (with_triggered true (with_data (data_string next) flag)).
    split_and!; try done.
    simpl. apply list_lookup_insert_eq. by eapply lookup_lt_Some.
  - by intros ->.
Qed.

(** [--name= hello pos]: the flag, not triggered before the run, holds
    [hello] and is triggered after it, and [pos] is positional. *)
Lemma trailing_separator_looks_ahead_witness :
  let p := examples.parser (examples.dashes "=" true)
             ["--name="; "hello"; "pos"] in
  (data <$> m_flags p !! 0 = Some (data_string (sv "nothing set")) ∧
   triggered <$> m_flags p !! 0 = Some false) ∧
  (∃ flag',
     data flag' = data_string (sv "hello") ∧ triggered flag' = true ∧
     m_flags (store 0 flag' p) !! 0 = Some flag' ∧
     parse p = parse_from [sv "pos"] (store 0 flag' p)) ∧
  (∃ p',
     parse p = Some (Result_default, p') ∧
     m_flags p'
     = [ {| name := sv "name"; description := sv "a string";
            data := data_string (sv "hello"); type := String;
            aliases := [sv "n"]; triggered := true |};
         examples.num_flag; examples.verbose_flag ] ∧
     m_flagless p' = [sv "pos"]).
Proof.
  intros p. split; [split; reflexivity|]. split.
  - opose proof* (trailing_separator_looks_ahead p [] (sv "name") "="%char
                    (sv <$> ["hello"; "pos"]) p 0 examples.name_flag)
      as [Hnext _];
      [vm_compute; reflexivity | vm_compute; reflexivity
      |vm_compute; reflexivity | | |vm_compute; reflexivity
      |vm_compute; reflexivity | vm_compute; reflexivity | ].
    + apply (bool_decide_unpack _). vm_compute. exact I.
    + done.
    + destruct (Hnext _ _ eq_refl) as (f & Hd & Ht & _ & Hl & _ & Hp).
      by exists f.
  - eexists. split; [vm_compute; reflexivity|split; reflexivity].
Defined.

(** C3: a separator of more than one character is not matched in full.
    The inner loop of [parse_flag] starts at [j = i], so past the length
    of the separator it compares nothing, and [parse] steps over one
    character only.  With the prefix [--] and the separator [::], the
    scan stops at the first [:] whatever follows it: [--name:x], which
    holds no separator, sets [name] to [x]; [--name::x] sets it to [:x];
    and in [--a:b::c] the candidate id is [a], not [a:b]. *)
Theorem multi_character_separator_is_not_matched :
  let o := examples.dashes "::" true in
  parse_flag o (sv "--name:x") 2 = Some (6, true) ∧
  tokenize o (sv "--name::x") = Some (sv "name", 6, true) ∧
  tokenize o (sv "--a:b::c") = Some (sv "a", 3, true) ∧
  (∃ p', parse (examples.parser o ["--name:x"]) = Some (Result_default, p') ∧
         data <$> m_flags p' !! 0 = Some (data_string (sv "x"))) ∧
  (∃ p', parse (examples.parser o ["--name::x"]) = Some (Result_default, p') ∧
         data <$> m_flags p' !! 0 = Some (data_string (sv ":x"))).
Proof.
  repeat split; try (vm_compute; reflexivity);
    eexists; (split; [vm_compute; reflexivity|reflexivity]).
Qed.


(** ** Positional arguments *)

(** C8, counterexample: in [--name hello] the argument [hello] is not
    flag-shaped, and yet it does not reach the positional list: it is the
    value of [name]. *)
Lemma value_argument_is_not_positional :
  let p := examples.parser (examples.dashes "=" true) ["--name"; "hello"] in
  is_flag (m_options p) (sv "hello") = false ∧
  ∃ p', parse p = Some (Result_default, p') ∧ m_flagless p' = [] ∧
        data <$> m_flags p' !! 0 = Some (data_string (sv "hello")).
Proof.
  split; [reflexivity|].
  eexists. split; [vm_compute; reflexivity|]. split; reflexivity.
Qed.

Lemma filter_cons_sublist {A} (P : A → Prop) `{!∀ x, Decision (P x)} x l :
  filter P l `sublist_of` filter P (x :: l).
Proof. rewrite filter_cons. case_decide; [by apply sublist_cons|done]. Qed.

(** What a run adds to the positional list is drawn, in order, from the
    arguments that are not flag-shaped. *)
Lemma parse_from_flagless args p r p' :
  parse_from args p = Some (r, p') →
  ∃ l, m_flagless p' = m_flagless p ++ l ∧
       l `sublist_of` filter (λ a, is_flag (m_options p) a = false) args.
Proof.
  revert args p. apply (parse_from_ind (λ args p, _ → _)).
  - intros p [= _ <-]. exists []. by rewrite (right_id_L [] (++)).
  - intros arg rest p IH. rewrite parse_from_cons.
    destruct (iteration arg rest p) as [[rest' p1|r1 p1]|] eqn:Hit;
      simpl; [| |done].
    + intros (l & Hl & Hsub)%IH; [|done].
      apply iteration_continue in Hit
        as [(_ & Hopt & _ & _ & Hless) Hrest].
      rewrite Hopt in Hsub.
      destruct Hless as [Hsame|(Hflag & _ & Hpush)].
      * exists l. split; [by rewrite Hl, Hsame|].
        destruct Hrest as [->|(next & -> & _)];
          (etrans; [exact Hsub|]); repeat (etrans; [|apply filter_cons_sublist]);
          done.
      * exists (arg :: l). split.
        { by rewrite Hl, Hpush, <- (assoc_L (++)). }
        destruct Hrest as [->|(next & _ & Hflag')]; [|congruence].
        rewrite filter_cons_True by done. by apply sublist_skip.
    + intros [= <- <-]. apply iteration_return in Hit as [_ ->].
      exists []. split; [by rewrite (right_id_L [] (++))|].
      apply sublist_nil_l.
Qed.

(** A turn that leaves all of [rest] to the loop does the same whatever
    follows the argument. *)
Lemma iteration_continue_same arg rest p p1 rest2 :
  iteration arg rest p = Some (Continue rest p1) →
  iteration arg rest2 p = Some (Continue rest2 p1).
Proof.
  unfold iteration.
  destruct (is_flag (m_options p) arg); simpl; [|by intros [= <-]].
  destruct (tokenize _ _) as [[[id sep_start] found_sep]|]; simpl; [|done].
  destruct (get p id) as [ptr|].
  - destruct (m_flags p !! ptr) as [flag|]; simpl; [|done].
    destruct (decide (type flag = Bool)); [by intros [= <-]|].
    unfold value_source.
    destruct (has_inline_value _ _ _).
    + destruct (set_value _ flag) as [[] flag']; [|done]. by intros [= <-].
    + destruct rest as [|next rest']; [done|].
      destruct (set_value _ flag) as [[] flag']; [|done].
      intros [= Hlen%(f_equal length) _]. simpl in Hlen. lia.
  - destruct (strict_flags _); [done|]. by intros [= <-].
Qed.

(** A turn that takes the next argument as a value needs one: with
    another rest it goes on in the same way, with none it fails. *)
Lemma iteration_continue_next arg next rest' p p1 :
  iteration arg (next :: rest') p = Some (Continue rest' p1) →
  (∀ rest2, iteration arg (next :: rest2) p = Some (Continue rest2 p1)) ∧
  ∃ r, iteration arg [] p = Some (Return r p).
Proof.
  unfold iteration.
  destruct (is_flag (m_options p) arg); simpl.
  2:{ intros [= Hlen%(f_equal length) _]. simpl in Hlen. lia. }
  destruct (tokenize _ _) as [[[id sep_start] found_sep]|]; simpl; [|done].
  destruct (get p id) as [ptr|].
  - destruct (m_flags p !! ptr) as [flag|]; simpl; [|done].
    destruct (decide (type flag = Bool)).
    { intros [= Hlen%(f_equal length) _]. simpl in Hlen. lia. }
    unfold value_source.
    destruct (has_inline_value _ _ _).
    + destruct (set_value _ flag) as [[] flag']; [|done].
      intros [= Hlen%(f_equal length) _]. simpl in Hlen. lia.
    + destruct (set_value _ flag) as [[] flag']; [|done].
      intros [= <-]. split; [done|]. by eexists.
  - destruct (strict_flags _); [done|].
    intros [= Hlen%(f_equal length) _]. simpl in Hlen. lia.
Qed.

(** A turn on which [parse] returns does so on every beginning of the
    arguments that follow. *)
Lemma iteration_return_take arg rest p r p' i :
  iteration arg rest p = Some (Return r p') →
  ∃ r' p'', iteration arg (take i rest) p = Some (Return r' p'').
Proof.
  unfold iteration.
  destruct (is_flag (m_options p) arg); simpl; [|done].
  destruct (tokenize _ _) as [[[id sep_start] found_sep]|]; simpl; [|done].
  destruct (get p id) as [ptr|].
  - destruct (m_flags p !! ptr) as [flag|]; simpl; [|done].
    destruct (decide (type flag = Bool)); [done|].
    unfold value_source.
    destruct (has_inline_value _ _ _).
    + destruct (set_value _ flag) as [[] flag']; [done|]. by eexists _, _.
    + destruct rest as [|next rest']; [rewrite take_nil; by eexists _, _|].
      destruct i as [|i]; simpl; [by eexists _, _|].
      destruct (set_value _ flag) as [[] flag']; [done|]. by eexists _, _.
  - destruct (strict_flags _); [|done]. by eexists _, _.
Qed.

Lemma concat_fmap_nil {A B} (l : list A) :
  concat ((λ _, @nil B) <$> l) = [].
Proof. by induction l. Qed.

Lemma positional_cons arg rest p :
  positional (arg :: rest) p =
  (if negb (is_flag (m_options p) arg) then [arg] else []) ++
  concat (imap (λ i a,
                  if reaches (arg :: rest) p (S i)
                     && negb (is_flag (m_options p) a)
                  then [a] else []) rest).
Proof. done. Qed.

(** A run adds to the positional list exactly the arguments it comes to
    that are not flag-shaped. *)
Lemma parse_from_positional args p r p' :
  parse_from args p = Some (r, p') →
  m_flagless p' = m_flagless p ++ positional args p.
Proof.
  revert args p. apply (parse_from_ind (λ args p, _ → _)).
  - intros p [= _ <-]. unfold positional. simpl.
    by rewrite (right_id_L [] (++)).
  - intros arg rest p IH. rewrite parse_from_cons, positional_cons.
    destruct (iteration arg rest p) as [[rest' p1|r1 p1]|] eqn:Hit;
      simpl; [| |done].
    + intros Hrun. rewrite (IH _ _ eq_refl Hrun).
      destruct (iteration_continue _ _ _ _ _ Hit)
        as [(_ & Hopt & _ & _ & Hless) [->|(next & -> & Hflag)]].
      * (* the turn leaves all that follows *)
        assert (Hpos : concat (imap (λ i a,
                         if reaches (arg :: rest) p (S i)
                            && negb (is_flag (m_options p) a)
                         then [a] else []) rest) = positional rest p1).
        { unfold positional. f_equal. apply imap_ext. intros i a _. cbv beta.
          unfold reaches. simpl take. rewrite parse_from_cons.
          rewrite (iteration_continue_same _ _ _ _ (take i rest) Hit).
          simpl. by rewrite Hopt. }
        rewrite Hpos.
        destruct (is_flag (m_options p) arg) eqn:Hflag; simpl.
        -- destruct Hless as [->|[? _]]; [done|congruence].
        -- rewrite iteration_positional in Hit by done.
           injection Hit as <-. simpl. by rewrite <- (assoc_L (++)).
      * (* the turn takes the next argument as well *)
        rewrite Hflag. cbn [negb app].
        destruct Hless as [->|[? _]]; [|congruence].
        f_equal. rewrite imap_cons. cbn [concat].
        destruct (iteration_continue_next _ _ _ _ _ Hit) as [Hnext [r0 Hnone]].
        assert (Hfirst : reaches (arg :: next :: rest') p 1 = false).
        { unfold reaches. simpl take. rewrite parse_from_cons, Hnone. simpl.
          by apply iteration_return in Hnone as [-> _]. }
        rewrite Hfirst. cbn [andb app]. unfold positional. f_equal.
        apply imap_ext. intros i a _. unfold compose.
        unfold reaches. simpl take. rewrite parse_from_cons, Hnext.
        simpl. by rewrite Hopt.
    + intros [= <- <-].
      pose proof (iteration_return _ _ _ _ _ Hit) as [_ ->].
      assert (Hflag : is_flag (m_options p) arg = true).
      { destruct (is_flag (m_options p) arg) eqn:Hflag; [done|].
        by rewrite iteration_positional in Hit. }
      rewrite Hflag. cbn [negb app].
      rewrite (imap_ext _ (const (λ _, []))).
      * rewrite imap_const, concat_fmap_nil. by rewrite (right_id_L [] (++)).
      * intros i a _. cbv beta. unfold reaches. simpl take.
        rewrite parse_from_cons.
        destruct (iteration_return_take _ _ _ _ _ i Hit) as (r' & p'' & Hret).
        rewrite Hret. simpl.
        by apply iteration_return in Hret as [-> _].
Qed.

(** C8, as amended: an argument is flag-shaped exactly when it is longer
    than the prefix and starts with it.  An argument that is not, and
    that the run comes to (that is, which the turn before did not take as
    the value of a flag), is appended to the positional list; the table
    is not consulted, whatever it holds, and no flag changes.  What a run
    adds to the positional list is exactly those arguments, in the order
    of the argument vector; the other arguments that are not flag-shaped
    are missing from it. *)
Theorem positional_arguments :
  (∀ o str,
     is_flag o str = true ↔
     length (flag_prefix o) < length str ∧
     ∀ i, i < length (flag_prefix o) → str !! i = flag_prefix o !! i) ∧
  (∀ p pre arg rest p1,
     m_args p = pre ++ arg :: rest →
     parse_from pre p = Some (Result_default, p1) →
     is_flag (m_options p) arg = false →
     (∀ t, iteration arg rest (with_table t p1)
           = Some (Continue rest
                     (with_table t
                        (with_flagless (m_flagless p1 ++ [arg]) p1)))) ∧
     parse p = parse_from rest (with_flagless (m_flagless p1 ++ [arg]) p1)) ∧
  (∀ p r p',
     parse p = Some (r, p') →
     m_flagless p' = m_flagless p ++ positional (m_args p) p ∧
     positional (m_args p) p
       `sublist_of` filter (λ a, is_flag (m_options p) a = false) (m_args p)).
Proof.
  split; [apply is_flag_spec|]. split.
  - intros p pre arg rest p1 Hargs Hpre Hflag.
    destruct (parse_reaches _ _ _ _ _ Hargs Hpre) as (-> & Htab & Hopt).
    split.
    + intros t. by rewrite iteration_positional by (by simpl; rewrite Hopt).
    + by rewrite iteration_positional by (by rewrite Hopt).
  - intros p r p' Hrun.
    pose proof (parse_from_positional _ _ _ _ Hrun) as Hpos.
    split; [done|].
    destruct (parse_from_flagless _ _ _ _ Hrun) as (l & Hl & Hsub).
    rewrite Hpos in Hl. by apply (inj (app _)) in Hl as ->.
Qed.

Lemma positional_arguments_witness :
  let p := examples.parser (examples.dashes "=" true)
             ["a"; "--verbose"; "--"; "-b"; "--num"; "1"; "c"] in
  ∃ p',
    parse p = Some (Result_default, p') ∧
    m_flagless p' = sv <$> ["a"; "--"; "-b"; "c"] ∧
    positional (m_args p) p = sv <$> ["a"; "--"; "-b"; "c"] ∧
    filter (λ a, is_flag (m_options p) a = false) (m_args p)
    = sv <$> ["a"; "--"; "-b"; "1"; "c"].
Proof.
  intros p. destruct positional_arguments as (_ & Hstep & Hall).
  opose proof* (Hstep p (sv <$> ["a"; "--verbose"; "--"; "-b"; "--num"; "1"])
                  (sv "c") [] _) as [_ Hparse];
    [vm_compute; reflexivity..|].
  eexists. split; [rewrite Hparse; vm_compute; reflexivity|].
  split; [reflexivity|]. split; vm_compute; reflexivity.
Defined.


(** ** The registry: [set] and [get] *)

Lemma emplace_lookup (key : string_view) (ptr : nat) (t : FlagTable) k :
  emplace key ptr t !! k =
  match t !! k with
  | Some w => Some w
  | None => if decide (k = key) then Some ptr else None
  end.
Proof.
  unfold emplace. destruct (t !! key) eqn:Hkey.
  - destruct (t !! k) eqn:Hk; [done|]. case_decide; [congruence|done].
  - destruct (decide (k = key)) as [->|Hne].
    + by rewrite lookup_insert_eq, Hkey.
    + rewrite lookup_insert_ne by done. by destruct (t !! k).
Qed.

Lemma foldl_emplace_lookup (ks : list string_view) (ptr : nat)
    (t : FlagTable) k :
  foldl (λ t alias, emplace alias ptr t) t ks !! k =
  match t !! k with
  | Some w => Some w
  | None => if decide (k ∈ ks) then Some ptr else None
  end.
Proof.
  revert t. induction ks as [|a ks IH]; intros t; simpl.
  - by destruct (t !! k).
  - rewrite IH, emplace_lookup. destruct (t !! k); [done|].
    destruct (decide (k = a)) as [->|Hne].
    + by rewrite decide_True by apply list_elem_of_here.
    + destruct (decide (k ∈ ks)).
      * by rewrite decide_True by (by apply list_elem_of_further).
      * by rewrite decide_False by (by intros [?|?]%elem_of_cons).
Qed.

(** [get] after [set]: a key that was in the table keeps its flag; a key
    of the new flag that was not goes to the new flag. *)
Lemma get_set f p k :
  get (set f p) k =
  match get p k with
  | Some w => Some w
  | None => if decide (k ∈ keys f) then Some (length (m_flags p)) else None
  end.
Proof.
  unfold get, set, keys. simpl. rewrite foldl_emplace_lookup, emplace_lookup.
  destruct (m_table p !! k); [done|].
  destruct (decide (k = name f)) as [->|Hne].
  - by rewrite decide_True by apply list_elem_of_here.
  - destruct (decide (k ∈ aliases f)).
    + by rewrite decide_True by (by apply list_elem_of_further).
    + by rewrite decide_False by (by intros [?|?]%elem_of_cons).
Qed.

Lemma m_flags_set_all fs p : m_flags (set_all fs p) = m_flags p ++ fs.
Proof.
  revert p. induction fs as [|f fs IH]; intros p; simpl.
  - by rewrite (right_id_L [] (++)).
  - unfold set_all in *. simpl. rewrite IH. simpl.
    by rewrite <- (assoc_L (++)).
Qed.

Lemma get_set_all_Some fs p k w :
  get p k = Some w → get (set_all fs p) k = Some w.
Proof.
  revert p. induction fs as [|f fs IH]; intros p Hk; [done|].
  apply IH. by rewrite get_set, Hk.
Qed.

Lemma get_set_all_None fs p k :
  get p k = None → (∀ g, g ∈ fs → k ∉ keys g) →
  get (set_all fs p) k = None.
Proof.
  revert p. induction fs as [|f fs IH]; intros p Hk Hfs; [done|].
  apply IH.
  - rewrite get_set, Hk.
    by rewrite decide_False by (apply Hfs, list_elem_of_here).
  - intros g Hg. by apply Hfs, list_elem_of_further.
Qed.

(** Only exact keys resolve: a key that [get] finds was in the table
    already, or is a key of the registered flag it leads to. *)
Lemma get_set_all_inv fs p k i :
  get (set_all fs p) k = Some i →
  get p k = Some i ∨
  ∃ g, (m_flags p ++ fs) !! i = Some g ∧ k ∈ keys g.
Proof.
  revert p. induction fs as [|f fs IH]; intros p; [by left|].
  intros [Hk|(g & Hg & Hin)]%IH.
  - rewrite get_set in Hk. destruct (get p k); [by left|].
    case_decide; [|done]. injection Hk as <-. right. exists f.
    split; [|done]. by rewrite list_lookup_middle.
  - right. exists g. split; [|done].
    by rewrite cons_middle, (assoc_L (++)).
Qed.

(** C9: in a parser built by a chain of [set] calls, a flag none of whose
    keys was taken by a flag registered before it is found by its name
    and by each of its aliases, and each time [get] gives the one position
    of that flag in [m_flags], the same [Flag] object.  Keys are compared
    as they are: whatever [get] finds is a key of the flag found, and a
    key of no registered flag resolves to nothing. *)
Theorem name_and_aliases_resolve_alike args o fs1 f fs2 :
  (∀ g k, g ∈ fs1 → k ∈ keys f → k ∉ keys g) →
  let p := set_all (fs1 ++ f :: fs2) (Parser_new args o) in
  m_flags p !! length fs1 = Some f ∧
  (∀ k, k ∈ keys f → get p k = Some (length fs1)) ∧
  (∀ alias, alias ∈ aliases f → get p alias = get p (name f)) ∧
  (∀ k i, get p k = Some i → ∃ g, m_flags p !! i = Some g ∧ k ∈ keys g) ∧
  (∀ k, (∀ g, g ∈ fs1 ++ f :: fs2 → k ∉ keys g) → get p k = None).
Proof.
  intros Hfresh p.
  assert (Hflags : m_flags p = fs1 ++ f :: fs2).
  { unfold p. by rewrite m_flags_set_all. }
  assert (Hkeys : ∀ k, k ∈ keys f → get p k = Some (length fs1)).
  { intros k Hk. unfold p, set_all. rewrite foldl_app. simpl.
    apply get_set_all_Some. rewrite get_set.
    change (foldl _ _ fs1) with (set_all fs1 (Parser_new args o)).
    rewrite get_set_all_None; [|done|by intros g Hg; apply Hfresh].
    rewrite decide_True by done. by rewrite m_flags_set_all. }
  split; [by rewrite Hflags, list_lookup_middle|].
  split; [done|]. split; [|split].
  - intros alias Hin.
    rewrite !Hkeys; [done|apply list_elem_of_here|].
    by apply list_elem_of_further.
  - intros k i [Hk|(g & Hg & Hin)]%get_set_all_inv; [done|].
    exists g. by rewrite Hflags.
  - intros k Hk. by apply get_set_all_None.
Qed.

Lemma name_and_aliases_resolve_alike_witness :
  let p := examples.parser (examples.dashes "=" true) ["--v"; "x"] in
  get p (sv "verbose") = Some 2 ∧ get p (sv "v") = Some 2 ∧
  m_flags p !! 2 = Some examples.verbose_flag ∧
  get p (sv "verb") = None ∧
  (∃ p', parse p = Some (Result_default, p') ∧
         get p' (sv "v") = get p' (sv "verbose") ∧
         data <$> m_flags p' !! 2 = Some (data_bool true)).
Proof.
  intros p.
  opose proof* (name_and_aliases_resolve_alike (sv <$> ["--v"; "x"])
                  (examples.dashes "=" true)
                  [examples.name_flag; examples.num_flag]
                  examples.verbose_flag [])
    as (Hflag & Hkeys & _ & _ & Hnone).
  { intros g k Hg Hk. apply (bool_decide_unpack _).
    repeat (apply elem_of_cons in Hg as [->|Hg]);
      [| |by apply not_elem_of_nil in Hg];
      repeat (apply elem_of_cons in Hk as [->|Hk]);
      try (by apply not_elem_of_nil in Hk); vm_compute; exact I. }
  split; [apply Hkeys, list_elem_of_here|].
  split; [apply Hkeys, list_elem_of_further, list_elem_of_here|].
  split; [exact Hflag|]. split.
  - apply Hnone. intros g Hg. apply (bool_decide_unpack _).
    repeat (apply elem_of_cons in Hg as [->|Hg]; [vm_compute; exact I|]).
    by apply not_elem_of_nil in Hg.
  - eexists. split; [vm_compute; reflexivity|]. split; reflexivity.
Defined.


(** ** What [parse] writes, and what it leaves *)

(** When [set_value] returns [true] for a flag that is not a [Bool], the
    flag is triggered and holds a value of its type. *)
Lemma set_value_true str flag flag' :
  set_value str flag = (true, flag') → type flag ≠ Bool →
  ∃ d, data_index d = type flag ∧
       flag' = with_triggered true (with_data d flag).
Proof.
  unfold set_value. destruct (type flag) eqn:Hty; [| |done]; intros Hset _.
  - injection Hset as <-. by exists (data_string str).
  - destruct (charconv.from_chars _ _) as [result value].
    destruct (decide _); [done|]. injection Hset as <-.
    by exists (data_double value).
Qed.

(** The three things a turn that goes on can have done. *)
Lemma iteration_continue_cases arg rest p rest' p1 :
  iteration arg rest p = Some (Continue rest' p1) →
  p1 = with_flagless (m_flagless p ++ [arg]) p ∨ p1 = p ∨
  ∃ ptr flag d,
    m_flags p !! ptr = Some flag ∧ data_index d = type flag ∧
    p1 = store ptr (with_triggered true (with_data d flag)) p.
Proof.
  unfold iteration.
  destruct (is_flag (m_options p) arg); simpl; [|intros [= _ <-]; by left].
  destruct (tokenize _ _) as [[[id sep_start] found_sep]|]; simpl; [|done].
  destruct (get p id) as [ptr|].
  - destruct (m_flags p !! ptr) as [flag|] eqn:Hptr; simpl; [|done].
    destruct (decide (type flag = Bool)) as [Hty|Hty].
    + intros [= _ <-]. right. right. by exists ptr, flag, (data_bool true).
    + destruct (value_source _ _ _ _) as [[value_str rest'']|]; [|done].
      destruct (set_value _ flag) as [[] flag'] eqn:Hset; [|done].
      intros [= _ <-]. right. right.
      destruct (set_value_true _ _ _ Hset Hty) as (d & Hd & ->).
      by exists ptr, flag, d.
  - destruct (strict_flags _); [done|]. intros [= _ <-]. right. by left.
Qed.

(** A relation between the parser before and after, which holds when
    nothing happens, which composes, and which every turn respects, holds
    of every run. *)
Lemma parse_from_preserves (I : Parser → Parser → Prop) :
  (∀ p, I p p) →
  (∀ p q r, I p q → I q r → I p r) →
  (∀ arg rest p rest' p1,
     iteration arg rest p = Some (Continue rest' p1) → I p p1) →
  ∀ args p r p', parse_from args p = Some (r, p') → I p p'.
Proof.
  intros Hrefl Htrans Hstep args p r p'. revert args p.
  apply (parse_from_ind (λ args p, _ → _)).
  - by intros p [= _ <-].
  - intros arg rest p IH. rewrite parse_from_cons.
    destruct (iteration arg rest p) as [[rest' p1|r1 p1]|] eqn:Hit;
      simpl; [| |done].
    + intros Hrun. eapply Htrans; [by eapply Hstep|by eapply IH].
    + intros [= _ <-]. by apply iteration_return in Hit as [_ ->].
Qed.

Lemma flagwise_refl p : flagwise p p.
Proof.
  unfold flagwise. apply Forall_Forall2_diag, Forall_forall.
  intros f _. by repeat split.
Qed.

Lemma flagwise_trans p q r : flagwise p q → flagwise q r → flagwise p r.
Proof.
  unfold flagwise. intros Hpq Hqr.
  eapply Forall2_trans; [|exact Hpq|exact Hqr].
  intros f g h ((Hn & Hd & Ht & Ha) & Htr & Hun & Hwt)
    ((Hn' & Hd' & Ht' & Ha') & Htr' & Hun' & Hwt').
  split; [by repeat split; etrans|]. split; [auto|]. split; [|auto].
  intros Hh. assert (h = g) as -> by auto.
  destruct (triggered g) eqn:Hg; [congruence|auto].
Qed.

Lemma flagwise_store ptr flag d p :
  m_flags p !! ptr = Some flag → data_index d = type flag →
  flagwise p (store ptr (with_triggered true (with_data d flag)) p).
Proof.
  intros Hptr Hd. unfold flagwise, store. simpl.
  apply Forall2_same_length_lookup_2; [by rewrite length_insert|].
  intros i f f' Hf Hf'.
  destruct (decide (i = ptr)) as [->|Hne].
  - rewrite list_lookup_insert_eq in Hf' by (by eapply lookup_lt_Some).
    assert (f = flag) as -> by congruence. injection Hf' as <-.
    by repeat split.
  - rewrite list_lookup_insert_ne in Hf' by done.
    assert (f' = f) as -> by congruence. by repeat split.
Qed.

Lemma parse_from_flagwise args p r p' :
  parse_from args p = Some (r, p') → flagwise p p'.
Proof.
  apply (parse_from_preserves flagwise);
    [apply flagwise_refl|apply flagwise_trans|].
  intros arg rest q rest' q1
    [->|[->|(ptr & flag & d & Hptr & Hd & ->)]]%iteration_continue_cases.
  - exact (flagwise_refl q).
  - apply flagwise_refl.
  - by apply flagwise_store.
Qed.

(** X1: [parse] leaves the registry as it found it.  The table, the
    options and the argument vector are the same afterwards, there are
    as many flags, and each flag has the name, the description, the type
    and the aliases it had: [parse] writes to [data] and [triggered]
    only. *)
Theorem parse_keeps_declarations p r p' :
  parse p = Some (r, p') →
  m_table p' = m_table p ∧ m_options p' = m_options p ∧
  m_args p' = m_args p ∧ length (m_flags p') = length (m_flags p) ∧
  ∀ i f', m_flags p' !! i = Some f' →
          ∃ f, m_flags p !! i = Some f ∧ same_declaration f f'.
Proof.
  intros Hrun.
  destruct (parse_from_frame _ _ _ _ Hrun) as (Htab & Hopt & Hargs & Hlen).
  repeat split; [done..|].
  intros i f' Hf'. apply parse_from_flagwise in Hrun.
  destruct (Forall2_lookup_r _ _ _ _ _ Hrun Hf') as (f & Hf & Hdecl & _).
  by exists f.
Qed.

Lemma parse_keeps_declarations_witness :
  let p := examples.parser (examples.dashes "=" true)
             ["--name=x"; "--num"; "oops"] in
  ∃ r p', parse p = Some (r, p') ∧ ok r = false ∧
          name <$> m_flags p' = name <$> m_flags p ∧
          type <$> m_flags p' = type <$> m_flags p ∧
          m_table p' = m_table p.
Proof.
  intros p. eexists _, _. split; [vm_compute; reflexivity|].
  split; [reflexivity|]. split; [reflexivity|]. split; [reflexivity|].
  eapply parse_keeps_declarations. vm_compute; reflexivity.
Defined.

(** X2: [parse] never takes a mark back, and it marks what it writes.
    A flag that was triggered before [parse] is triggered after it; a
    flag that is not triggered after [parse] is, field for field, the
    flag it was before: its data is still the default. *)
Theorem untriggered_flag_is_untouched p r p' i f f' :
  parse p = Some (r, p') →
  m_flags p !! i = Some f → m_flags p' !! i = Some f' →
  (triggered f = true → triggered f' = true) ∧
  (triggered f' = false → f' = f).
Proof.
  intros Hrun%parse_from_flagwise Hf Hf'.
  by destruct (Forall2_lookup_lr _ _ _ _ _ _ Hrun Hf Hf') as (_ & ? & ? & _).
Qed.

Lemma untriggered_flag_is_untouched_witness :
  let p := examples.parser (examples.dashes "=" true)
             ["--verbose"; "--num"; "oops"] in
  ∃ r p', parse p = Some (r, p') ∧
          m_flags p' !! 1 = Some examples.num_flag ∧
          triggered <$> m_flags p' !! 2 = Some true.
Proof.
  intros p. eexists _, _. split; [vm_compute; reflexivity|].
  split; [|reflexivity].
  opose proof* (untriggered_flag_is_untouched p _ _ 1 examples.num_flag)
    as [_ Hsame]; [vm_compute; reflexivity|reflexivity|reflexivity|].
  by rewrite (Hsame eq_refl).
Defined.

(** X3: [parse] keeps the flags well typed.  When every flag holds the
    alternative of the variant that goes with its type, every flag still
    does after [parse], whatever the arguments and whatever the result:
    a [Bool] flag is given a [bool], a [Number] flag a [double], a
    [String] flag a view. *)
Theorem parse_keeps_flags_well_typed p r p' :
  Forall well_typed (m_flags p) →
  parse p = Some (r, p') →
  Forall well_typed (m_flags p').
Proof.
  intros Hwt Hrun%parse_from_flagwise.
  apply Forall_lookup. intros i f' Hf'.
  destruct (Forall2_lookup_r _ _ _ _ _ Hrun Hf') as (f & Hf & _ & _ & _ & Hw).
  apply Hw. by eapply Forall_lookup_1 in Hwt.
Qed.

Lemma parse_keeps_flags_well_typed_witness :
  let p := examples.parser (examples.dashes "=" true)
             ["--name=x"; "--num"; "2.5"; "--verbose"] in
  ∃ p', parse p = Some (Result_default, p') ∧
        Forall well_typed (m_flags p') ∧
        data <$> m_flags p'
        = [data_string (sv "x");
           data_double (S754_finite false 5629499534213120 (-51));
           data_bool true].
Proof.
  intros p. eexists. split; [vm_compute; reflexivity|]. split; [|reflexivity].
  eapply (parse_keeps_flags_well_typed p); [|vm_compute; reflexivity].
  repeat constructor.
Defined.

(** ** Pointers stay in range *)

Lemma emplace_in_range (key : string_view) (ptr n : nat) (t : FlagTable) :
  ptr < n → (∀ k i, t !! k = Some i → i < n) →
  ∀ k i, emplace key ptr t !! k = Some i → i < n.
Proof.
  intros Hptr Ht k i. rewrite emplace_lookup.
  destruct (t !! k) as [w|] eqn:Hk; [intros [= <-]; by eapply Ht|].
  case_decide; [|done]. by intros [= <-].
Qed.

Lemma set_in_range f p : table_in_range p → table_in_range (set f p).
Proof.
  unfold table_in_range, set. simpl. rewrite length_app. simpl.
  intros Hp key ptr. rewrite foldl_emplace_lookup, emplace_lookup.
  destruct (m_table p !! key) as [w|] eqn:Hk.
  - intros [= <-]. apply Hp in Hk. lia.
  - case_decide; [intros [= <-]; lia|]. case_decide; [|done].
    intros [= <-]. lia.
Qed.

Lemma set_all_in_range fs p : table_in_range p → table_in_range (set_all fs p).
Proof.
  revert p. induction fs as [|f fs IH]; intros p Hp; [done|].
  apply IH. by apply set_in_range.
Qed.

Lemma turn_keeps_range arg p p1 :
  turn_effect arg p p1 → table_in_range p → table_in_range p1.
Proof.
  intros (Htab & _ & _ & Hlen & _) Hp key ptr. rewrite Htab, Hlen. apply Hp.
Qed.

(** A turn returns, with no read out of range and no pointer followed
    into the void, when the table is in range and the separator is not
    empty and fits into every flag-shaped argument. *)
Lemma iteration_defined arg rest p :
  table_in_range p →
  separator (m_options p) ≠ [] →
  length (separator (m_options p)) ≤ S (length (flag_prefix (m_options p))) →
  is_Some (iteration arg rest p).
Proof.
  intros Hrange Hsep Hlen. unfold iteration.
  destruct (is_flag (m_options p) arg) eqn:Hflag; simpl; [|done].
  destruct (tokenize_defined (m_options p) arg) as [[[id s] f] ->];
    [done..| |].
  { apply is_flag_spec in Hflag as [? _]. lia. }
  simpl. destruct (get p id) as [ptr|] eqn:Hget; [|by destruct (strict_flags _)].
  destruct (lookup_lt_is_Some_2 (m_flags p) ptr) as [flag ->];
    [by eapply Hrange|].
  simpl. destruct (decide _); [done|].
  destruct (value_source _ _ _ _) as [[value_str rest']|]; [|done].
  by destruct (set_value _ flag) as [[] flag'].
Qed.

Lemma parse_from_defined args p :
  table_in_range p →
  separator (m_options p) ≠ [] →
  length (separator (m_options p)) ≤ S (length (flag_prefix (m_options p))) →
  is_Some (parse_from args p).
Proof.
  revert args p. apply (parse_from_ind (λ args p, _ → _ → _ → _)).
  - intros p _ _ _. by eexists.
  - intros arg rest p IH Hrange Hsep Hlen. rewrite parse_from_cons.
    destruct (iteration_defined arg rest p) as [[rest' p1|r p1] Hit];
      [done..| |]; rewrite Hit; simpl; [|done].
    destruct (iteration_continue _ _ _ _ _ Hit) as [Heff _].
    pose proof Heff as (_ & Hopt & _).
    apply (IH _ _ Hit); [by eapply turn_keeps_range|by rewrite Hopt..].
Qed.

Lemma set_all_keeps_options fs p :
  m_options (set_all fs p) = m_options p ∧ m_args (set_all fs p) = m_args p.
Proof.
  revert p. induction fs as [|f fs IH]; intros p; [done|].
  change (set_all (f :: fs) p) with (set_all fs (set f p)).
  by destruct (IH (set f p)) as [-> ->].
Qed.

(** X4: a parser set up the way the header intends never leaves defined
    behaviour in [parse].  For a parser built from the constructor by
    [set] calls, whose separator is not empty and is at most one
    character longer than the prefix, [parse] returns a result on every
    argument vector: no view is read past its end, no [substr] throws,
    and every pointer taken from the table points to a flag. *)
Theorem parse_is_defined args o fs :
  separator o ≠ [] →
  length (separator o) ≤ S (length (flag_prefix o)) →
  table_in_range (set_all fs (Parser_new args o)) ∧
  ∃ r p', parse (set_all fs (Parser_new args o)) = Some (r, p').
Proof.
  intros Hsep Hlen.
  assert (Hrange : table_in_range (set_all fs (Parser_new args o))).
  { apply set_all_in_range. intros key ptr. simpl. by rewrite lookup_empty. }
  split; [done|].
  assert (Hopt : m_options (set_all fs (Parser_new args o)) = o)
    by apply (set_all_keeps_options fs (Parser_new args o)).
  destruct (parse_from_defined
              (m_args (set_all fs (Parser_new args o)))
              (set_all fs (Parser_new args o))) as [[r p'] Hrun];
    [done|by rewrite Hopt..|].
  by exists r, p'.
Qed.

Lemma parse_is_defined_witness :
  ∃ r p',
    parse (examples.parser (examples.dashes ":" false)
             ["--name:"; "--num"; "-"; "--x:y:z"; ""; "--:"]) = Some (r, p').
Proof.
  opose proof* (parse_is_defined
                  (sv <$> ["--name:"; "--num"; "-"; "--x:y:z"; ""; "--:"])
                  (examples.dashes ":" false)
                  [examples.name_flag; examples.num_flag; examples.verbose_flag])
    as [_ Hrun]; [done|vm_compute; lia|].
  exact Hrun.
Defined.

(** X5: with an empty separator, [parse] has no defined result as soon
    as the run comes to a flag-shaped argument: [parse_flag] reads
    [sep[0]] of an empty view. *)
Theorem empty_separator_is_undefined p pre arg rest p1 :
  m_args p = pre ++ arg :: rest →
  parse_from pre p = Some (Result_default, p1) →
  separator (m_options p) = [] →
  is_flag (m_options p) arg = true →
  parse_flag (m_options p) arg (length (flag_prefix (m_options p))) = None ∧
  parse p = None.
Proof.
  intros Hargs Hpre Hsep Hflag.
  assert (Hnone : parse_flag (m_options p) arg
                    (length (flag_prefix (m_options p))) = None).
  { pose proof Hflag as [Hlt _]%is_flag_spec.
    unfold parse_flag. rewrite Hsep.
    destruct (length arg - _) as [|fuel] eqn:Hfuel; [lia|]. simpl.
    rewrite decide_True by done.
    by destruct (arg !! length (flag_prefix (m_options p))). }
  split; [done|].
  destruct (parse_reaches _ _ _ _ _ Hargs Hpre) as (-> & _ & Hopt).
  unfold iteration, tokenize. by rewrite Hopt, Hflag, Hnone.
Qed.

Lemma empty_separator_is_undefined_witness :
  parse (examples.parser (examples.dashes "" true) ["pos"; "--name"; "x"])
  = None.
Proof.
  eapply (empty_separator_is_undefined _ [sv "pos"] (sv "--name") [sv "x"]);
    vm_compute; reflexivity.
Defined.

(** X6: on a collision of keys the flag registered first keeps the key.
    [set] always puts the new flag at the back of the flags, and every
    key that resolved before resolves to the same flag after, also when
    the new flag declares that key as its name or as an alias: that flag
    is then in the list and cannot be found under the key. *)
Theorem first_registration_keeps_the_key f p key ptr :
  get p key = Some ptr →
  get (set f p) key = Some ptr ∧
  m_flags (set f p) = m_flags p ++ [f] ∧
  (table_in_range p → key ∈ keys f →
   get (set f p) key ≠ Some (length (m_flags p))).
Proof.
  intros Hget. rewrite get_set, Hget. split; [done|]. split; [done|].
  intros Hrange _ [= ->]. apply Hrange in Hget. lia.
Qed.

Lemma first_registration_keeps_the_key_witness :
  let shadow :=
    {| name := sv "v"; description := sv "late"; data := data_string [];
       type := String; aliases := [sv "name"]; triggered := false |} in
  let p := set shadow (examples.parser (examples.dashes "=" true) ["--v"]) in
  get p (sv "v") = Some 2 ∧ get p (sv "name") = Some 0 ∧
  m_flags p !! 3 = Some shadow ∧
  ∃ p', parse p = Some (Result_default, p') ∧
        m_flags p' !! 3 = Some shadow ∧
        data <$> m_flags p' !! 2 = Some (data_bool true).
Proof.
  intros shadow p. split; [|split].
  - eapply first_registration_keeps_the_key. vm_compute; reflexivity.
  - eapply first_registration_keeps_the_key. vm_compute; reflexivity.
  - split; [reflexivity|]. eexists.
    split; [vm_compute; reflexivity|]. split; reflexivity.
Defined.

(** ** The results of [parse] *)

Lemma iteration_return_cases arg rest p r p' :
  iteration arg rest p = Some (Return r p') →
  ∃ id, (r = invalid_flag_id id ∧ strict_flags (m_options p) = true ∧
         get p id = None) ∨
        (r = fail_result id ∧ ∃ ptr, get p id = Some ptr).
Proof.
  unfold iteration.
  destruct (is_flag (m_options p) arg); simpl; [|done].
  destruct (tokenize _ _) as [[[id sep_start] found_sep]|]; simpl; [|done].
  destruct (get p id) as [ptr|] eqn:Hget.
  - destruct (m_flags p !! ptr) as [flag|]; simpl; [|done].
    destruct (decide (type flag = Bool)); [done|].
    destruct (value_source _ _ _ _) as [[value_str rest'']|].
    + destruct (set_value _ flag) as [[] flag']; [done|].
      intros [= <- _]. exists id. right. eauto.
    + intros [= <- _]. exists id. right. eauto.
  - destruct (strict_flags _) eqn:Hstrict; [|done].
    intros [= <- _]. exists id. by left.
Qed.

Lemma parse_from_result args p r p' :
  parse_from args p = Some (r, p') →
  r = Result_default ∨
  ∃ id, (r = invalid_flag_id id ∧ strict_flags (m_options p) = true ∧
         get p id = None) ∨
        (r = fail_result id ∧ ∃ ptr, get p id = Some ptr).
Proof.
  revert args p. apply (parse_from_ind (λ args p, _ → _)).
  - intros p [= <- _]. by left.
  - intros arg rest p IH. rewrite parse_from_cons.
    destruct (iteration arg rest p) as [[rest' p1|r1 p1]|] eqn:Hit;
      simpl; [| |done].
    + intros Hrun. destruct (iteration_continue _ _ _ _ _ Hit)
        as [(Htab & Hopt & _) _].
      destruct (IH _ _ eq_refl Hrun) as [->|Hfail]; [by left|right].
      unfold get in *. by rewrite <- Htab, <- Hopt.
    + intros [= <- _]. right. by eapply iteration_return_cases.
Qed.

(** X7: [parse] has three kinds of result and no other.  It returns
    [Result{}]; or [{false, id, "invalid flag id used"}], in strict mode
    only and for an [id] that is not in the table; or
    [{false, id, "could not set flag value"}], for an [id] that is in the
    table. *)
Theorem parse_results p r p' :
  parse p = Some (r, p') →
  r = {| ok := true; flag_id := []; error := [] |} ∨
  ∃ id,
    (r = {| ok := false; flag_id := id; error := sv "invalid flag id used" |} ∧
     strict_flags (m_options p) = true ∧ get p id = None) ∨
    (r = {| ok := false; flag_id := id;
            error := sv "could not set flag value" |} ∧
     ∃ ptr, get p id = Some ptr).
Proof. apply parse_from_result. Qed.

Lemma parse_results_witness :
  let p := examples.parser (examples.dashes "=" false) ["--bogus"; "--n"] in
  ∃ p', parse p = Some (fail_result (sv "n"), p') ∧ get p (sv "n") = Some 0.
Proof.
  intros p. eexists. split; [vm_compute; reflexivity|].
  opose proof* (parse_results p) as [Hok|(id & [(Hr & _)|(Hr & ptr & Hget)])];
    [vm_compute; reflexivity|discriminate Hok|discriminate Hr|].
  injection Hr as <-. vm_compute in Hget. by rewrite Hget.
Defined.

(** ** Runs without lookahead *)

Lemma flagwise_all_bool p p' :
  flagwise p p' →
  Forall (λ f, type f = Bool) (m_flags p) →
  Forall (λ f, type f = Bool) (m_flags p').
Proof.
  intros Hfw Hall. apply Forall_lookup. intros i f' Hf'.
  destruct (Forall2_lookup_r _ _ _ _ _ Hfw Hf')
    as (f & Hf & (_ & _ & Hty & _) & _).
  rewrite <- Hty. by eapply Forall_lookup_1 in Hall.
Qed.

Lemma iteration_all_bool arg rest p o :
  Forall (λ f, type f = Bool) (m_flags p) →
  is_flag (m_options p) arg = true →
  iteration arg rest p = Some o →
  (∃ p1, o = Continue rest p1 ∧ flagwise p p1 ∧
         m_flagless p1 = m_flagless p ∧ m_options p1 = m_options p) ∨
  (∃ id, o = Return (invalid_flag_id id) p ∧
         strict_flags (m_options p) = true).
Proof.
  intros Hall Hflag. unfold iteration. rewrite Hflag. simpl.
  destruct (tokenize _ _) as [[[id sep_start] found_sep]|]; simpl; [|done].
  destruct (get p id) as [ptr|].
  - destruct (m_flags p !! ptr) as [flag|] eqn:Hptr; simpl; [|done].
    assert (Hty : type flag = Bool) by (by eapply Forall_lookup_1 in Hall).
    rewrite decide_True by done. intros [= <-]. left. eexists.
    split; [done|]. split; [|done]. by apply flagwise_store.
  - destruct (strict_flags _) eqn:Hstrict; intros [= <-].
    + right. by exists id.
    + left. exists p. split; [done|]. split; [apply flagwise_refl|done].
Qed.

Lemma parse_from_all_bool args p r p' :
  Forall (λ f, type f = Bool) (m_flags p) →
  parse_from args p = Some (r, p') →
  (strict_flags (m_options p) = false → r = Result_default) ∧
  (r = Result_default →
   m_flagless p' = m_flagless p
                   ++ filter (λ a, is_flag (m_options p) a = false) args).
Proof.
  revert args p. apply (parse_from_ind (λ args p, _ → _ → _)).
  - intros p _ [= <- <-]. split; [done|]. intros _.
    by rewrite filter_nil, (right_id_L [] (++)).
  - intros arg rest p IH Hall. rewrite parse_from_cons.
    destruct (is_flag (m_options p) arg) eqn:Hflag.
    + rewrite filter_cons_False by congruence.
      destruct (iteration arg rest p) as [o|] eqn:Hit; simpl; [|done].
      destruct (iteration_all_bool _ _ _ _ Hall Hflag Hit)
        as [(p1 & -> & Hfw & Hless & Hopt)|(id & -> & Hstrict)]; simpl.
      * intros Hrun. rewrite <- Hless, <- Hopt.
        apply (IH _ _ eq_refl); [|done]. by eapply flagwise_all_bool.
      * intros [= <- <-]. split; [congruence|done].
    + rewrite iteration_positional by done. simpl.
      rewrite filter_cons_True by done.
      intros Hrun.
      destruct (IH _ _ (iteration_positional _ rest _ Hflag) Hall Hrun)
        as [Hok Hpos].
      split; [done|]. intros Hr. rewrite (Hpos Hr). simpl.
      by rewrite <- (assoc_L (++)).
Qed.

(** X8: a parser with [Bool] flags only never looks ahead.  Its run
    does not fail when strict mode is off, and when it does not fail the
    positional list gains every argument that is not flag-shaped, in
    order, none taken as a value. *)
Theorem bool_flags_only p r p' :
  Forall (λ f, type f = Bool) (m_flags p) →
  parse p = Some (r, p') →
  (strict_flags (m_options p) = false → r = Result_default) ∧
  (r = Result_default →
   m_flagless p' = m_flagless p
                   ++ filter (λ a, is_flag (m_options p) a = false) (m_args p)).
Proof. apply parse_from_all_bool. Qed.

Lemma bool_flags_only_witness :
  let p := set examples.verbose_flag
             (Parser_new (sv <$> ["a"; "--v"; "b"; "--w=1"; "c"])
                (examples.dashes "=" false)) in
  ∃ p', parse p = Some (Result_default, p') ∧
        m_flagless p' = sv <$> ["a"; "b"; "c"].
Proof.
  intros p. eexists. split; [vm_compute; reflexivity|].
  opose proof* (bool_flags_only p) as [_ Hpos];
    [repeat constructor|vm_compute; reflexivity|].
  rewrite (Hpos eq_refl). vm_compute; reflexivity.
Defined.

Lemma parse_from_all_positional args p :
  Forall (λ a, is_flag (m_options p) a = false) args →
  parse_from args p
  = Some (Result_default, with_flagless (m_flagless p ++ args) p).
Proof.
  revert p. induction args as [|arg rest IH]; intros p Hall.
  - simpl. rewrite (right_id_L [] (++)). by destruct p.
  - apply Forall_cons in Hall as [Harg Hrest].
    rewrite parse_from_cons, iteration_positional by done. simpl.
    rewrite IH by done. simpl. by rewrite <- (assoc_L (++)).
Qed.

(** X9: an argument vector in which nothing is flag-shaped is copied to
    the positional list, behind what the list held, and nothing else
    changes: no flag is written and the table is not read. *)
Theorem no_flag_shaped_argument p :
  Forall (λ a, is_flag (m_options p) a = false) (m_args p) →
  parse p
  = Some (Result_default, with_flagless (m_flagless p ++ m_args p) p).
Proof. apply parse_from_all_positional. Qed.

Lemma no_flag_shaped_argument_witness :
  let p := examples.parser (examples.dashes "=" true) ["-name"; "--"; ""; "x"] in
  ∃ p', parse p = Some (Result_default, p') ∧
        m_flagless p' = sv <$> ["-name"; "--"; ""; "x"] ∧
        m_flags p' = m_flags p.
Proof.
  intros p. eexists. split.
  - apply (no_flag_shaped_argument p). repeat constructor.
  - split; reflexivity.
Defined.

(** ** More on the tokenizer *)

Lemma parse_flag_loop_false fuel str sep i s :
  parse_flag_loop fuel str sep i = Some (s, false) → s = length str.
Proof.
  revert i. induction fuel as [|fuel IH]; intros i; simpl;
    destruct (decide (i < length str)); try (by intros [= <-]).
  destruct (str !! i) as [c|]; simpl; [|done].
  destruct (sep !! 0) as [s0|]; simpl; [|done].
  destruct (decide (c = s0)); [|apply IH].
  destruct (sep_loop _ _ _ _ _ _) as [[[i' j] found]|]; simpl; [|done].
  destruct found; [done|apply IH].
Qed.

Lemma parse_flag_loop_true fuel str sep i s :
  parse_flag_loop fuel str sep i = Some (s, true) → length sep ≤ i →
  s < length str ∧ str !! s = sep !! 0.
Proof.
  revert i. induction fuel as [|fuel IH]; intros i; simpl;
    destruct (decide (i < length str)) as [Hi|Hi]; try done.
  destruct (str !! i) as [c|] eqn:Hc; simpl; [|done].
  destruct (sep !! 0) as [s0|] eqn:Hs0; simpl; [|done].
  destruct (decide (c = s0)) as [->|]; [|intros H ?; apply (IH _ H); lia].
  intros Hrun Hlen. revert Hrun.
  replace (length sep - i) with 0 by lia. simpl.
  intros [= <-]. by rewrite Hc.
Qed.

Lemma is_flag_take o arg :
  is_flag o arg = true →
  take (length (flag_prefix o)) arg = flag_prefix o.
Proof.
  intros [Hlt Hpre]%is_flag_spec. apply list_eq. intros i.
  destruct (decide (i < length (flag_prefix o))) as [Hi|Hi].
  - rewrite lookup_take_lt by done. by apply Hpre.
  - rewrite lookup_take_ge by lia. symmetry. apply lookup_ge_None. lia.
Qed.

Lemma tokenize_inv o arg id sep_start found_sep :
  tokenize o arg = Some (id, sep_start, found_sep) →
  parse_flag o arg (length (flag_prefix o)) = Some (sep_start, found_sep) ∧
  id = take (sep_start - length (flag_prefix o))
            (drop (length (flag_prefix o)) arg).
Proof.
  unfold tokenize.
  destruct (parse_flag _ _ _) as [[s f]|]; simpl; [|done].
  unfold substr. destruct (decide _); simpl; [done|].
  by intros [= <- <- <-].
Qed.

(** X10: the tokenizer splits and loses nothing.  For a flag-shaped
    argument, the prefix, the candidate id and what the argument holds
    from the reported position on make up the argument again.  When no
    separator is reported the id runs to the end of the argument; when
    one is reported, and the separator is no longer than the prefix, the
    reported position is inside the argument and holds the first
    character of the separator. *)
Theorem tokenize_splits_the_argument o arg id sep_start found_sep :
  is_flag o arg = true →
  tokenize o arg = Some (id, sep_start, found_sep) →
  arg = flag_prefix o ++ id ++ drop sep_start arg ∧
  length (flag_prefix o) + length id = sep_start `min` length arg ∧
  (found_sep = false → arg = flag_prefix o ++ id) ∧
  (found_sep = true →
   length (separator o) ≤ length (flag_prefix o) →
   sep_start < length arg ∧ arg !! sep_start = separator o !! 0).
Proof.
  intros Hflag [Hpf ->]%tokenize_inv.
  pose proof (is_flag_take _ _ Hflag) as Htake.
  pose proof Hflag as [Hlt _]%is_flag_spec.
  assert (Hge : length (flag_prefix o) ≤ sep_start).
  { eapply parse_flag_ge_offset; [|done]. lia. }
  assert (Hsplit : arg = flag_prefix o
                         ++ take (sep_start - length (flag_prefix o))
                              (drop (length (flag_prefix o)) arg)
                         ++ drop sep_start arg).
  { rewrite <- (take_drop (length (flag_prefix o)) arg) at 1.
    rewrite Htake. f_equal.
    rewrite <- (take_drop (sep_start - length (flag_prefix o))
                  (drop (length (flag_prefix o)) arg)) at 1.
    f_equal. rewrite drop_drop. f_equal. lia. }
  split; [done|]. split.
  { rewrite length_take, length_drop. lia. }
  split.
  - intros ->. apply parse_flag_loop_false in Hpf as ->.
    rewrite Hsplit at 1. by rewrite drop_all, (right_id_L [] (++)).
  - intros -> Hlen. by eapply parse_flag_loop_true.
Qed.

Lemma tokenize_splits_the_argument_witness :
  let o := examples.dashes "=" true in
  tokenize o (sv "--key=a=b") = Some (sv "key", 5, true) ∧
  sv "--key=a=b" = sv "--" ++ sv "key" ++ sv "=a=b".
Proof.
  intros o. split; [vm_compute; reflexivity|].
  by opose proof* (tokenize_splits_the_argument o (sv "--key=a=b"))
    as [Hsplit _]; [vm_compute; reflexivity..|].
Defined.

(** X11: when the separator is no longer than the offset, [parse_flag]
    looks for the first character of the separator and for nothing
    else: it reports the first position from [offset] on that holds this
    character, or the size of the argument and [false] when no position
    does. *)
Theorem parse_flag_finds_the_first_character o c sep' str offset :
  separator o = c :: sep' →
  length (separator o) ≤ offset →
  parse_flag o str offset
  = Some (match list_find (λ x, x = c) (drop offset str) with
          | Some (k, _) => (offset + k, true)
          | None => (length str, false)
          end).
Proof.
  intros Hsep Hlen. unfold parse_flag.
  destruct (list_find _ _) as [[k x]|] eqn:Hfind.
  - apply list_find_Some in Hfind as (Hk & -> & Hbefore).
    rewrite lookup_drop in Hk.
    pose proof (lookup_lt_Some _ _ _ Hk) as Hlt.
    pose proof (take_drop_middle str (offset + k) c Hk) as Hmid.
    assert (Hla : length (take (offset + k) str) = offset + k).
    { rewrite length_take. lia. }
    assert (Hnot : c ∉ drop offset (take (offset + k) str)).
    { intros (j & Hj)%list_elem_of_lookup.
      rewrite lookup_drop in Hj.
      assert (offset + j < offset + k).
      { apply lookup_lt_Some in Hj. by rewrite Hla in Hj. }
      rewrite lookup_take_lt in Hj by done.
      apply (Hbefore j c); [by rewrite lookup_drop|lia|done]. }
    revert Hla Hnot Hmid.
    generalize (take (offset + k) str) (drop (S (offset + k)) str).
    intros a b Hla Hnot <-. rewrite <- Hla.
    apply (parse_flag_loop_found _ _ c); [by rewrite Hsep|lia|done|lia|lia].
  - apply list_find_None in Hfind.
    apply (parse_flag_loop_not_found _ _ c); [by rewrite Hsep| |lia].
    intros Hin. by eapply Forall_forall in Hfind.
Qed.

Lemma parse_flag_finds_the_first_character_witness :
  parse_flag (examples.dashes ":" true) (sv "--a:b:c") 2 = Some (3, true) ∧
  parse_flag (examples.dashes ":" true) (sv "--abc") 2 = Some (5, false) ∧
  parse_flag (examples.dashes ":=" true) (sv "--a:b:=c") 2 = Some (3, true).
Proof.
  split; [|split].
  - rewrite (parse_flag_finds_the_first_character _ ":"%char [])
      by first [reflexivity|vm_compute; lia].
    vm_compute; reflexivity.
  - rewrite (parse_flag_finds_the_first_character _ ":"%char [])
      by first [reflexivity|vm_compute; lia].
    vm_compute; reflexivity.
  - rewrite (parse_flag_finds_the_first_character _ ":"%char ["="%char])
      by first [reflexivity|vm_compute; lia].
    vm_compute; reflexivity.
Defined.

(** ** Inline values *)

Lemma parse_from_reaches pre arg rest p p1 :
  parse_from pre p = Some (Result_default, p1) →
  parse_from (pre ++ arg :: rest) p = iteration arg rest p1 ≫= resume ∧
  m_table p1 = m_table p ∧ m_options p1 = m_options p.
Proof.
  intros Hpre. rewrite (parse_from_app _ _ _ _ Hpre), parse_from_cons.
  by apply parse_from_frame in Hpre as (-> & -> & _).
Qed.

Lemma drop_after_separator (pre name : string_view) c value :
  drop (S (length pre + length name)) (pre ++ name ++ c :: value) = value.
Proof.
  rewrite (assoc_L (++)), drop_app_ge by (rewrite length_app; lia).
  rewrite length_app.
  by replace (S (length pre + length name) - (length pre + length name))
    with 1 by lia.
Qed.

(** The turn on [prefix ++ name ++ c :: value], for the one-character
    separator [c] and a flag that is not a [Bool]. *)
Lemma iteration_inline p name c value rest ptr flag :
  separator (m_options p) = [c] → c ∉ name →
  flag_prefix (m_options p) ++ name ≠ [] → value ≠ [] →
  get p name = Some ptr → m_flags p !! ptr = Some flag →
  type flag ≠ Bool →
  iteration (flag_prefix (m_options p) ++ name ++ c :: value) rest p
  = Some (if (set_value value flag).1
          then Continue rest (store ptr (set_value value flag).2 p)
          else Return (fail_result name) (store ptr (set_value value flag).2 p)).
Proof.
  intros Hsep Hnot Hne Hval Hget Hptr Hty.
  assert (Hlen : 1 ≤ length (flag_prefix (m_options p)) + length name).
  { rewrite <- length_app.
    destruct (flag_prefix (m_options p) ++ name) eqn:E; [done|simpl; lia]. }
  rewrite (iteration_flag _ _ _ name
             (length (flag_prefix (m_options p)) + length name) true).
  - rewrite Hget, Hptr. simpl. rewrite decide_False by done.
    unfold value_source, has_inline_value. simpl.
    rewrite bool_decide_eq_true_2.
    + rewrite drop_after_separator.
      by destruct (set_value value flag) as [[] flag'].
    + rewrite !length_app. simpl. destruct value; [done|simpl; lia].
  - apply is_flag_prefixed. by destruct name.
  - apply (tokenize_separator _ c []); [done..|]. by rewrite Hsep.
Qed.

(** The turn on [prefix ++ name] followed by [value], for the same. *)
Lemma iteration_lookahead p name c sep' value rest ptr flag :
  separator (m_options p) = c :: sep' → c ∉ name → name ≠ [] →
  get p name = Some ptr → m_flags p !! ptr = Some flag →
  type flag ≠ Bool →
  iteration (flag_prefix (m_options p) ++ name) (value :: rest) p
  = Some (if (set_value value flag).1
          then Continue rest (store ptr (set_value value flag).2 p)
          else Return (fail_result name) (store ptr (set_value value flag).2 p)).
Proof.
  intros Hsep Hnot Hne Hget Hptr Hty.
  rewrite (iteration_flag _ _ _ name
             (length (flag_prefix (m_options p)) + length name) false).
  - rewrite Hget, Hptr. simpl. rewrite decide_False by done.
    unfold value_source, has_inline_value. simpl.
    by destruct (set_value value flag) as [[] flag'].
  - by apply is_flag_prefixed.
  - by apply (tokenize_no_separator _ c sep').
Qed.

(** X12: an inline value is taken as it stands.  For a one-character
    separator and an argument made of the prefix, a name free of the
    separator, the separator and a value that is not empty, where prefix
    and name are not both empty and the name resolves to a flag that is
    not a [Bool]: the value text is all that follows the first separator,
    further separators included, and the next argument is left to the
    loop.  A [String] flag then holds exactly that text and is marked
    triggered, and nothing else of it changes. *)
Theorem inline_value_is_taken_verbatim p pre name c value rest p1 ptr flag :
  m_args p
  = pre ++ (flag_prefix (m_options p) ++ name ++ c :: value) :: rest →
  parse_from pre p = Some (Result_default, p1) →
  separator (m_options p) = [c] → c ∉ name →
  flag_prefix (m_options p) ++ name ≠ [] → value ≠ [] →
  get p name = Some ptr → m_flags p1 !! ptr = Some flag →
  type flag ≠ Bool →
  parse p
  = (if (set_value value flag).1
     then parse_from rest (store ptr (set_value value flag).2 p1)
     else Some (fail_result name, p1)) ∧
  (type flag = String →
   ∃ flag',
     data flag' = data_string value ∧ triggered flag' = true ∧
     same_declaration flag flag' ∧
     m_flags (store ptr flag' p1) !! ptr = Some flag' ∧
     m_flagless (store ptr flag' p1) = m_flagless p1 ∧
     parse p = parse_from rest (store ptr flag' p1)).
Proof.
  intros Hargs Hpre Hsep Hnot Hne Hval Hget Hptr Hty.
  unfold parse. rewrite Hargs.
  destruct (parse_from_reaches _ (flag_prefix (m_options p) ++ name ++ c :: value)
              rest _ _ Hpre) as (-> & Htab & Hopt).
  rewrite <- Hopt.
  rewrite (iteration_inline p1 name c value rest ptr flag);
    [|by rewrite ?Hopt..| |done|done].
  2:{ unfold get in *. by rewrite Htab. }
  destruct (set_value value flag) as [[] flag'] eqn:Hset; simpl.
  - split; [done|]. intros Hstr. revert Hset. unfold set_value.
    rewrite Hstr. intros [= <-].
    exists (with_triggered true (with_data (data_string value) flag)).
    split_and!; try done.
    simpl. apply list_lookup_insert_eq. by eapply lookup_lt_Some.
  - pose proof (set_value_false _ _ _ Hset) as ->.
    rewrite store_same by done.
    split; [done|]. intros Hstr. revert Hset. unfold set_value.
    by rewrite Hstr.
Qed.

(** [--name=a=b --x --verbose]: the flag [name], not triggered before the
    run, holds [a=b --x] and is triggered after it. *)
Lemma inline_value_is_taken_verbatim_witness :
  let p := examples.parser (examples.dashes "=" true)
             ["--name=a=b --x"; "--verbose"] in
  triggered <$> m_flags p = [false; false; false] ∧
  (∃ flag',
     data flag' = data_string (sv "a=b --x") ∧ triggered flag' = true ∧
     m_flags (store 0 flag' p) !! 0 = Some flag' ∧
     parse p = parse_from [sv "--verbose"] (store 0 flag' p)) ∧
  (∃ p', parse p = Some (Result_default, p') ∧
         data <$> m_flags p' = [data_string (sv "a=b --x");
                                data_double (S754_zero false);
                                data_bool true] ∧
         triggered <$> m_flags p' = [true; false; true] ∧
         m_flags p' !! 0
         = Some {| name := sv "name"; description := sv "a string";
                   data := data_string (sv "a=b --x"); type := String;
                   aliases := [sv "n"]; triggered := true |}).
Proof.
  intros p. split; [reflexivity|]. split.
  - opose proof* (inline_value_is_taken_verbatim p [] (sv "name") "="%char
                    (sv "a=b --x") [sv "--verbose"] p 0 examples.name_flag)
      as [_ Hstring];
      [vm_compute; reflexivity | vm_compute; reflexivity
      |vm_compute; reflexivity | | done | done |vm_compute; reflexivity
      |vm_compute; reflexivity | done | ].
    + apply (bool_decide_unpack _). vm_compute. exact I.
    + destruct (Hstring eq_refl) as (f & Hd & Ht & _ & Hl & _ & Hp).
      by exists f.
  - eexists. split; [vm_compute; reflexivity|repeat split].
Defined.

(** X13: an inline value and a value in the next argument come to the
    same.  For a one-character separator, a name free of it that
    resolves to a flag which is not a [Bool], and a value that is not
    empty, the run on [prefix name separator value] and the run on the two
    arguments [prefix name] and [value] give the same result and the same
    parser. *)
Theorem inline_and_next_argument_agree p pre name c value rest p1 ptr flag :
  parse_from pre p = Some (Result_default, p1) →
  separator (m_options p) = [c] → c ∉ name → name ≠ [] → value ≠ [] →
  get p name = Some ptr → m_flags p1 !! ptr = Some flag →
  type flag ≠ Bool →
  parse_from
    (pre ++ (flag_prefix (m_options p) ++ name ++ c :: value) :: rest) p
  = parse_from
      (pre ++ (flag_prefix (m_options p) ++ name) :: value :: rest) p.
Proof.
  intros Hpre Hsep Hnot Hne Hval Hget Hptr Hty.
  destruct (parse_from_reaches _ (flag_prefix (m_options p) ++ name ++ c :: value)
              rest _ _ Hpre) as (-> & Htab & Hopt).
  destruct (parse_from_reaches _ (flag_prefix (m_options p) ++ name)
              (value :: rest) _ _ Hpre) as (-> & _ & _).
  rewrite <- Hopt.
  assert (Hget1 : get p1 name = Some ptr) by (unfold get in *; by rewrite Htab).
  rewrite (iteration_inline p1 name c value rest ptr flag);
    [|by rewrite Hopt|done| |done|done|done|done].
  - rewrite (iteration_lookahead p1 name c [] value rest ptr flag);
      [done|by rewrite Hopt|done..].
  - by intros [_ ?]%app_eq_nil.
Qed.

Lemma inline_and_next_argument_agree_witness :
  let p := examples.parser (examples.dashes "=" true) [] in
  parse_from (sv <$> ["pos"; "--num=1e3"; "--verbose"]) p
  = parse_from (sv <$> ["pos"; "--num"; "1e3"; "--verbose"]) p ∧
  ∃ p', parse_from (sv <$> ["pos"; "--num"; "1e3"; "--verbose"]) p
        = Some (Result_default, p') ∧
        data <$> m_flags p' !! 1
        = Some (data_double (S754_finite false 8796093022208000 (-43))).
Proof.
  intros p. split.
  - eapply (inline_and_next_argument_agree p [sv "pos"] (sv "num") "="%char
              (sv "1e3") [sv "--verbose"] _ 1 examples.num_flag);
      [vm_compute; reflexivity | vm_compute; reflexivity
      | |done|done|vm_compute; reflexivity|vm_compute; reflexivity|done].
    apply (bool_decide_unpack _). vm_compute. exact I.
  - eexists. split; [vm_compute; reflexivity|]. reflexivity.
Defined.

(** ** [to_string] *)

Lemma to_string_foldl o (fs : Flags) (output : string_view) :
  foldl (λ output flag,
           ((((output ++ flag_prefix o) ++ name flag)
               ++ ["009"; "009"]%char) ++ description flag) ++ ["010"]%char)
        output fs
  = output ++ concat (to_string_line o <$> fs).
Proof.
  revert output. induction fs as [|f fs IH]; intros output; simpl.
  - by rewrite (right_id_L [] (++)).
  - rewrite IH. unfold to_string_line. by rewrite <- !(assoc_L (++)).
Qed.

Lemma to_string_lines p :
  to_string p = concat (to_string_line (m_options p) <$> m_flags p).
Proof. unfold to_string. by rewrite to_string_foldl. Qed.

Lemma flagwise_to_string p p' :
  flagwise p p' → m_options p' = m_options p → to_string p' = to_string p.
Proof.
  intros Hfw Hopt. rewrite !to_string_lines, Hopt. f_equal.
  apply list_eq. intros i. rewrite !list_lookup_fmap.
  destruct (m_flags p' !! i) as [f'|] eqn:Hf'.
  - destruct (Forall2_lookup_r _ _ _ _ _ Hfw Hf')
      as (f & -> & (Hn & Hd & _) & _).
    simpl. unfold to_string_line. by rewrite Hn, Hd.
  - apply Forall2_length in Hfw.
    apply lookup_ge_None in Hf'. rewrite <- Hfw in Hf'.
    by apply lookup_ge_None in Hf' as ->.
Qed.

(** X14: the help text has one line for each registered flag, in the
    order of registration: the prefix, the name, two tabs, the
    description, a line feed.  A flag whose keys were all taken has its
    line too.  [parse] does not change the text, whatever its result. *)
Theorem to_string_lists_the_flags args o fs r p' :
  parse (set_all fs (Parser_new args o)) = Some (r, p') →
  to_string (set_all fs (Parser_new args o))
  = concat (to_string_line o <$> fs) ∧
  to_string p' = concat (to_string_line o <$> fs).
Proof.
  intros Hrun.
  assert (Hbefore : to_string (set_all fs (Parser_new args o))
                    = concat (to_string_line o <$> fs)).
  { rewrite to_string_lines, m_flags_set_all.
    by destruct (set_all_keeps_options fs (Parser_new args o)) as [-> _]. }
  split; [done|]. rewrite <- Hbefore.
  apply flagwise_to_string; [by eapply parse_from_flagwise|].
  by apply parse_from_frame in Hrun as (_ & -> & _).
Qed.

Lemma to_string_lists_the_flags_witness :
  let p := examples.parser (examples.dashes "=" true) ["--name=x"; "--oops"] in
  ∃ r p', parse p = Some (r, p') ∧ ok r = false ∧
          to_string p'
          = sv "--name" ++ ["009"; "009"]%char ++ sv "a string" ++ ["010"]%char
            ++ sv "--num" ++ ["009"; "009"]%char ++ sv "a number" ++ ["010"]%char
            ++ sv "--verbose" ++ ["009"; "009"]%char ++ sv "a switch"
            ++ ["010"]%char.
Proof.
  intros p. eexists _, _. split; [vm_compute; reflexivity|].
  split; [reflexivity|].
  opose proof* (to_string_lists_the_flags (sv <$> ["--name=x"; "--oops"])
                  (examples.dashes "=" true)
                  [examples.name_flag; examples.num_flag; examples.verbose_flag])
    as [_ Hafter]; [vm_compute; reflexivity|].
  rewrite Hafter. reflexivity.
Defined.

(** ** [call] *)

(** The callback [call] runs for the flag at position [i], if any. *)
Lemma call_loop_length fns flags :
  length (call_loop fns flags).2 = length flags.
Proof.
  revert fns. induction flags as [|flag flags IH]; intros fns; [done|].
  simpl. destruct (if triggered flag then _ else _) as [fn|].
  - destruct (fn flag) as [result flag']. destruct (ok result); [|done].
    specialize (IH (tail fns)).
    destruct (call_loop (tail fns) flags). simpl in *. by rewrite IH.
  - specialize (IH (tail fns)).
    destruct (call_loop (tail fns) flags). simpl in *. by rewrite IH.
Qed.

Lemma call_loop_untouched fns flags i f :
  flags !! i = Some f →
  triggered f = false ∨ mjoin (fns !! i) = None →
  (call_loop fns flags).2 !! i = Some f.
Proof.
  revert fns i. induction flags as [|flag flags IH]; intros fns i; [done|].
  destruct i as [|i]; simpl.
  - intros [= ->] Hskip.
    assert ((if triggered f then mjoin (head fns) else None) = None) as ->.
    { destruct Hskip as [->|Hnone]; [done|].
      destruct (triggered f); [|done]. by destruct fns. }
    by destruct (call_loop (tail fns) flags).
  - intros Hf Hskip.
    assert (Hrest : (call_loop (tail fns) flags).2 !! i = Some f).
    { apply IH; [done|]. by destruct fns. }
    destruct (if triggered flag then _ else _) as [fn|].
    + destruct (fn flag) as [result flag']. destruct (ok result); [|done].
      by destruct (call_loop (tail fns) flags).
    + by destruct (call_loop (tail fns) flags).
Qed.

(** [call] on the first flags, then on the others. *)
Lemma call_loop_app fns pre post :
  call_loop fns (pre ++ post) =
  (let '(r, pre') := call_loop fns pre in
   if ok r then
     let '(r', post') := call_loop (drop (length pre) fns) post in
     (r', pre' ++ post')
   else (r, pre' ++ post)).
Proof.
  revert fns. induction pre as [|flag pre IH]; intros fns; simpl.
  - rewrite drop_0. by destruct (call_loop fns post).
  - assert (Hdrop : drop (length pre) (tail fns) = drop (S (length pre)) fns)
      by (destruct fns; simpl; by rewrite ?drop_nil).
    destruct (if triggered flag then _ else _) as [fn|].
    + destruct (fn flag) as [result flag']. destruct (ok result) eqn:Hok.
      * rewrite IH, Hdrop. destruct (call_loop (tail fns) pre) as [r pre'].
        destruct (ok r); [|done].
        by destruct (call_loop _ post).
      * simpl. by rewrite Hok.
    + rewrite IH, Hdrop. destruct (call_loop (tail fns) pre) as [r pre'].
      destruct (ok r); [|done].
      by destruct (call_loop _ post).
Qed.

Lemma call_loop_ok fns flags :
  ok (call_loop fns flags).1 = true → (call_loop fns flags).1 = Result_default.
Proof.
  revert fns. induction flags as [|flag flags IH]; intros fns; [done|].
  simpl. destruct (if triggered flag then _ else _) as [fn|].
  - destruct (fn flag) as [result flag']. destruct (ok result) eqn:Hok.
    + specialize (IH (tail fns)). by destruct (call_loop (tail fns) flags).
    + simpl. congruence.
  - specialize (IH (tail fns)). by destruct (call_loop (tail fns) flags).
Qed.

(** X15: [call] runs callbacks of triggered flags only, and a callback
    is handed its own flag.  A flag that is not triggered, or has no
    callback, is after [call] what it was before; the number of flags
    and all the rest of the parser stay. *)
Theorem call_leaves_the_other_flags fns p i f :
  m_flags p !! i = Some f →
  triggered f = false ∨ mjoin (fns !! i) = None →
  m_flags (call fns p).2 !! i = Some f ∧
  length (m_flags (call fns p).2) = length (m_flags p) ∧
  m_table (call fns p).2 = m_table p ∧
  m_flagless (call fns p).2 = m_flagless p.
Proof.
  intros Hf Hskip. unfold call.
  pose proof (call_loop_untouched fns _ _ _ Hf Hskip) as Hsame.
  pose proof (call_loop_length fns (m_flags p)) as Hlen.
  by destruct (call_loop fns (m_flags p)).
Qed.

(** X16: [call] stops at the first callback that fails.  When the
    callbacks of the triggered flags before a flag return [ok] and the
    callback of that flag, which is triggered, does not, [call] returns
    what this callback returned; the flags behind it are not called and
    stay as they were.  Results with [ok] set are dropped, whatever
    else they hold. *)
Theorem call_stops_at_the_first_failure fns p pre flag post fn pre' :
  m_flags p = pre ++ flag :: post →
  call_loop fns pre = (Result_default, pre') →
  triggered flag = true →
  fns !! length pre = Some (Some fn) →
  ok (fn flag).1 = false →
  call fns p = ((fn flag).1, with_flags (pre' ++ (fn flag).2 :: post) p).
Proof.
  intros Hflags Hpre Htrig Hfn Hfail. unfold call.
  rewrite Hflags, call_loop_app, Hpre. simpl.
  assert (Hhead : mjoin (head (drop (length pre) fns)) = Some fn).
  { by rewrite head_lookup, lookup_drop, Nat.add_0_r, Hfn. }
  rewrite Htrig, Hhead.
  destruct (fn flag) as [result flag']. simpl in *. by rewrite Hfail.
Qed.

Lemma call_leaves_the_other_flags_witness :
  let fns := [Some callbacks.accept; Some callbacks.accept; None] in
  let p' := (call fns callbacks.triggered_parser).2 in
  m_flags p' !! 1 = Some examples.num_flag ∧
  m_flags p' !! 2 = Some (with_triggered true examples.verbose_flag) ∧
  data <$> m_flags p' !! 0 = Some (data_string (sv "seen")).
Proof.
  intros fns p'. split; [|split; [|reflexivity]].
  - eapply (call_leaves_the_other_flags fns callbacks.triggered_parser 1);
      [reflexivity|by left].
  - eapply (call_leaves_the_other_flags fns callbacks.triggered_parser 2);
      [reflexivity|by right].
Defined.

Lemma call_stops_at_the_first_failure_witness :
  let fns := [Some callbacks.accept; Some callbacks.reject;
              Some callbacks.reject] in
  call fns callbacks.triggered_parser
  = ({| ok := false; flag_id := sv "verbose"; error := sv "rejected" |},
     with_flags
       [with_data (data_string (sv "seen"))
          (with_triggered true examples.name_flag);
        examples.num_flag; with_triggered true examples.verbose_flag]
       callbacks.triggered_parser).
Proof.
  intros fns.
  rewrite (call_stops_at_the_first_failure fns callbacks.triggered_parser
             [with_triggered true examples.name_flag; examples.num_flag]
             (with_triggered true examples.verbose_flag) []
             callbacks.reject
             [with_data (data_string (sv "seen"))
                (with_triggered true examples.name_flag);
              examples.num_flag]);
    reflexivity.
Defined.

Lemma call_loop_all_ok fns flags :
  (∀ i f fn, flags !! i = Some f → triggered f = true →
             fns !! i = Some (Some fn) → ok (fn f).1 = true) →
  call_loop fns flags
  = (Result_default,
     imap (λ i f, match (if triggered f then mjoin (fns !! i) else None) with
                  | Some fn => (fn f).2
                  | None => f
                  end) flags).
Proof.
  revert fns. induction flags as [|flag flags IH]; intros fns Hok; [done|].
  rewrite imap_cons. simpl.
  rewrite (IH (tail fns)).
  2:{ intros i f fn Hf Htr Hfn. apply (Hok (S i) f fn); [done..|].
      by destruct fns. }
  assert (Hext : imap (λ i f, match (if triggered f
                                     then mjoin (tail fns !! i) else None) with
                              | Some fn => (fn f).2
                              | None => f
                              end) flags
                 = imap ((λ i f, match (if triggered f
                                        then mjoin (fns !! i) else None) with
                                 | Some fn => (fn f).2
                                 | None => f
                                 end) ∘ S) flags).
  { apply imap_ext. intros i f _. simpl. by destruct fns. }
  rewrite Hext. rewrite <- head_lookup.
  destruct (triggered flag) eqn:Htr; [|done].
  destruct (head fns) as [[fn|]|] eqn:Hhead; simpl; [|done..].
  specialize (Hok 0 flag fn eq_refl Htr).
  rewrite <- head_lookup, Hhead in Hok. specialize (Hok eq_refl).
  destruct (fn flag) as [result flag']. simpl in *. by rewrite Hok.
Qed.

(** X17: when no callback fails, [call] returns [Result{}] and has run
    every callback of a triggered flag once, on that flag: what the
    callbacks returned is dropped, what they left in their flags is
    kept. *)
Theorem call_runs_every_triggered_callback fns p :
  (∀ i f fn, m_flags p !! i = Some f → triggered f = true →
             fns !! i = Some (Some fn) → ok (fn f).1 = true) →
  call fns p
  = ({| ok := true; flag_id := []; error := [] |},
     with_flags
       (imap (λ i f, match (if triggered f then mjoin (fns !! i) else None) with
                     | Some fn => (fn f).2
                     | None => f
                     end) (m_flags p)) p).
Proof. intros Hok. unfold call. by rewrite call_loop_all_ok. Qed.

Lemma call_runs_every_triggered_callback_witness :
  let fns := [Some callbacks.accept; Some callbacks.reject;
              Some callbacks.accept] in
  ∃ p', call fns callbacks.triggered_parser = (Result_default, p') ∧
        data <$> m_flags p'
        = [data_string (sv "seen"); data_double (S754_zero false);
           data_string (sv "seen")].
Proof.
  intros fns. eexists. split.
  - rewrite (call_runs_every_triggered_callback fns callbacks.triggered_parser);
      [reflexivity|].
    intros [|[|[|i]]] f fn Hf Htr Hfn; simpl in *; try done;
      injection Hf as <-; try done; by injection Hfn as <-.
  - reflexivity.
Defined.

(** ** Running [parse] again *)

(** [set_value] looks at the type of the flag and at the text, and at
    nothing else. *)
Lemma set_value_same_type str f g :
  type f = type g →
  (set_value str f).1 = (set_value str g).1 ∧
  ((set_value str f).1 = true → type f ≠ Bool →
   ∃ d, (set_value str f).2 = with_triggered true (with_data d f) ∧
        (set_value str g).2 = with_triggered true (with_data d g)).
Proof.
  intros Hty. unfold set_value. rewrite <- Hty.
  destruct (type f); [| |done].
  - split; [done|]. intros _ _. by exists (data_string str).
  - destruct (charconv.from_chars _ _) as [result value].
    destruct (decide _); [done|]. split; [done|]. intros _ _.
    by exists (data_double value).
Qed.

Lemma written_flags_agree d f g :
  same_declaration f g →
  with_triggered true (with_data d f) = with_triggered true (with_data d g).
Proof.
  destruct f, g. intros (Hn & Hd & Ht & Ha). simpl in *. by subst.
Qed.

Lemma iteration_alike arg rest p q o :
  alike p q →
  iteration arg rest p = Some o →
  match o with
  | Continue rest' p1 =>
      ∃ q1, iteration arg rest q = Some (Continue rest' q1) ∧
            same_turn arg p p1 q q1
  | Return r _ => iteration arg rest q = Some (Return r q)
  end.
Proof.
  intros (Htab & Hopt & Hdecl). unfold iteration, get. rewrite Htab, Hopt.
  destruct (is_flag (m_options p) arg); simpl.
  2:{ intros [= <-]. eexists. split; [done|]. by left. }
  destruct (tokenize _ _) as [[[id sep_start] found_sep]|]; simpl; [|done].
  destruct (m_table p !! id) as [ptr|].
  - destruct (m_flags p !! ptr) as [fp|] eqn:Hfp; simpl; [|done].
    destruct (Forall2_lookup_l _ _ _ _ _ Hdecl Hfp)
      as (fq & Hfq & Hsame).
    pose proof Hsame as (_ & _ & Hty & _).
    rewrite Hfq. simpl. rewrite <- Hty.
    destruct (decide (type fp = Bool)) as [Hbool|Hbool].
    + intros [= <-]. eexists. split; [done|]. right. right.
      by exists ptr, fp, fq, (data_bool true).
    + destruct (value_source _ _ _ _) as [[value_str rest']|];
        [|intros [= <-]; done].
      destruct (set_value_same_type value_str fp fq Hty) as [Hok Hwritten].
      destruct (set_value value_str fp) as [okp fp'] eqn:Hp.
      destruct (set_value value_str fq) as [okq fq'] eqn:Hq.
      simpl in *. subst okq. destruct okp.
      * intros [= <-]. destruct (Hwritten eq_refl Hbool) as (d & -> & ->).
        eexists. split; [done|]. right. right. by exists ptr, fp, fq, d.
      * intros [= <-]. apply set_value_false in Hq as ->.
        by rewrite store_same.
  - destruct (strict_flags _); intros [= <-]; [done|].
    eexists. split; [done|]. right. by left.
Qed.

Lemma same_turn_alike arg p p1 q q1 :
  alike p q → same_turn arg p p1 q q1 → alike p1 q1.
Proof.
  intros (Htab & Hopt & Hdecl)
    [[-> ->]|[[-> ->]|(ptr & fp & fq & d & Hfp & Hfq & -> & ->)]]; [done..|].
  split; [done|]. split; [done|]. unfold store. simpl.
  apply Forall2_same_length_lookup_2.
  { rewrite !length_insert. by eapply Forall2_length. }
  intros i f g.
  destruct (decide (i = ptr)) as [->|Hne].
  - rewrite !list_lookup_insert_eq by (by eapply lookup_lt_Some).
    intros [= <-] [= <-].
    by destruct (Forall2_lookup_lr _ _ _ _ _ _ Hdecl Hfp Hfq) as (?&?&?&?).
  - rewrite !list_lookup_insert_ne by done.
    by apply Forall2_lookup_lr.
Qed.

(** Two runs on the same arguments by parsers that are alike: the same
    result, the same arguments added to the positional lists, and flag
    by flag either the same flag in the end, or a flag neither run
    wrote to. *)
Lemma parse_from_alike args p q r p' :
  alike p q →
  parse_from args p = Some (r, p') →
  ∃ q' l,
    parse_from args q = Some (r, q') ∧
    m_flagless p' = m_flagless p ++ l ∧ m_flagless q' = m_flagless q ++ l ∧
    ∀ i, m_flags p' !! i = m_flags q' !! i ∨
         (m_flags p' !! i = m_flags p !! i ∧ m_flags q' !! i = m_flags q !! i).
Proof.
  revert args p q. apply (parse_from_ind (λ args p, ∀ q, _ → _ → _)).
  - intros p q _ [= <- <-]. exists q, []. simpl.
    rewrite !(right_id_L [] (++)). repeat split. intros i. by right.
  - intros arg rest p IH q Halike. rewrite !parse_from_cons.
    destruct (iteration arg rest p) as [o|] eqn:Hit; simpl; [|done].
    pose proof (iteration_alike _ _ _ _ _ Halike Hit) as Hq.
    destruct o as [rest' p1|r1 p1]; simpl.
    + destruct Hq as (q1 & Hq & Hturn). rewrite Hq. simpl. intros Hrun.
      destruct (IH _ _ eq_refl q1 (same_turn_alike _ _ _ _ _ Halike Hturn) Hrun)
        as (q' & l & Hrun' & Hl & Hl' & Hflags).
      destruct Halike as (_ & _ & Hdecl).
      destruct Hturn
        as [[-> ->]|[[-> ->]|(ptr & fp & fq & d & Hfp & Hfq & -> & ->)]].
      * exists q', (arg :: l). split; [done|]. simpl in *.
        rewrite Hl, Hl', <- !(assoc_L (++)). by repeat split.
      * by exists q', l.
      * exists q', l. split; [done|]. split; [done|]. split; [done|].
        intros i. unfold store in Hflags. simpl in Hflags.
        destruct (Hflags i) as [Heq|[Hp Hq']]; [by left|].
        destruct (decide (i = ptr)) as [->|Hne].
        -- left. rewrite Hp, Hq'.
           rewrite !list_lookup_insert_eq by (by eapply lookup_lt_Some).
           f_equal. apply written_flags_agree.
           by destruct (Forall2_lookup_lr _ _ _ _ _ _ Hdecl Hfp Hfq)
             as (?&?&?&?).
        -- right. by rewrite Hp, Hq', !list_lookup_insert_ne.
    + rewrite Hq. simpl. intros [= <- <-].
      apply iteration_return in Hit as [_ ->].
      exists q, []. rewrite !(right_id_L [] (++)). repeat split.
      intros i. by right.
Qed.

(** X18: [parse] can be run again, and then repeats itself.  On the
    parser a run leaves, a second run on the same arguments gives the
    same result and leaves every flag as the first run left it; but the
    positional list is not cleared in between: what the first run added
    to it is added a second time. *)
Theorem parse_again p r p' :
  parse p = Some (r, p') →
  ∃ l, m_flagless p' = m_flagless p ++ l ∧
       parse p' = Some (r, with_flagless (m_flagless p' ++ l) p').
Proof.
  intros Hrun.
  destruct (parse_from_frame _ _ _ _ Hrun) as (Htab & Hopt & Hargs & Hlen).
  assert (Halike : alike p p').
  { split; [done|]. split; [done|].
    eapply Forall2_impl; [by eapply parse_from_flagwise|]. by intros f f' [? _]. }
  destruct (parse_from_alike _ _ _ _ _ Halike Hrun)
    as (q' & l & Hrun' & Hl & Hl' & Hflags).
  exists l. split; [done|]. unfold parse. rewrite Hargs, Hrun'. do 2 f_equal.
  destruct (parse_from_frame _ _ _ _ Hrun') as (Htab' & Hopt' & Hargs' & Hlen').
  assert (Hsame : m_flags q' = m_flags p').
  { apply list_eq. intros i. by destruct (Hflags i) as [->|[-> ->]]. }
  destruct q', p'. simpl in *. by subst.
Qed.

Lemma parse_again_witness :
  let p := examples.parser (examples.dashes "=" true)
             ["a"; "--name=x"; "b"; "--num"; "bad"; "c"] in
  ∃ p' p'',
    parse p = Some (fail_result (sv "num"), p') ∧
    parse p' = Some (fail_result (sv "num"), p'') ∧
    m_flags p'' = m_flags p' ∧
    m_flagless p' = sv <$> ["a"; "b"] ∧
    m_flagless p'' = sv <$> ["a"; "b"; "a"; "b"].
Proof.
  intros p. eexists _, _. split; [vm_compute; reflexivity|].
  match goal with
  | |- parse ?q = _ ∧ _ =>
      opose proof* (parse_again p _ q) as (l & Hl & Hagain);
        [vm_compute; reflexivity|]
  end.
  vm_compute in Hl. subst l.
  split; [exact Hagain|]. split; [reflexivity|]. split; reflexivity.
Defined.

(** ** The table and the flags *)

Lemma get_set_all fs p k :
  get (set_all fs p) k =
  match get p k with
  | Some ptr => Some ptr
  | None => (λ ig, length (m_flags p) + ig.1)
              <$> list_find (λ g, k ∈ keys g) fs
  end.
Proof.
  revert p. induction fs as [|f fs IH]; intros p.
  - simpl. by destruct (get p k).
  - change (set_all (f :: fs) p) with (set_all fs (set f p)).
    rewrite IH, get_set. destruct (get p k) as [ptr|]; [done|].
    simpl. destruct (decide (k ∈ keys f)) as [Hin|Hin].
    + simpl. f_equal. lia.
    + rewrite length_app. simpl.
      destruct (list_find _ fs) as [[i g]|]; simpl; [|done]. f_equal. lia.
Qed.

(** X19: [get] resolves a key to the first registered flag that
    declares it, as its name or as an alias, and to nothing when no
    registered flag does. *)
Theorem get_finds_the_first_declaration args o fs k :
  get (set_all fs (Parser_new args o)) k
  = fst <$> list_find (λ g, k ∈ keys g) fs ∧
  ∀ ptr, get (set_all fs (Parser_new args o)) k = Some ptr →
         ∃ g, m_flags (set_all fs (Parser_new args o)) !! ptr = Some g ∧
              k ∈ keys g ∧
              ∀ j h, fs !! j = Some h → j < ptr → k ∉ keys h.
Proof.
  assert (Hget : get (set_all fs (Parser_new args o)) k
                 = fst <$> list_find (λ g, k ∈ keys g) fs).
  { rewrite get_set_all. unfold get. simpl. rewrite lookup_empty.
    by destruct (list_find _ fs) as [[i g]|]. }
  split; [done|]. intros ptr. rewrite Hget, m_flags_set_all. simpl.
  destruct (list_find _ fs) as [[i g]|] eqn:Hfind; [|done].
  intros [= <-]. apply list_find_Some in Hfind as (Hg & Hin & Hfirst).
  exists g. repeat split; [done..|]. intros j h Hh Hj. by eapply Hfirst.
Qed.

Lemma get_finds_the_first_declaration_witness :
  let late :=
    {| name := sv "n"; description := []; data := data_bool false;
       type := Bool; aliases := [sv "late"]; triggered := false |} in
  let p := set_all [examples.name_flag; late] (Parser_new [] Options_default) in
  get p (sv "n") = Some 0 ∧ get p (sv "late") = Some 1 ∧
  get p (sv "N") = None.
Proof.
  intros late p. unfold p.
  by rewrite !(proj1 (get_finds_the_first_declaration _ _ _ _)).
Defined.

Lemma iteration_writes_through_the_table arg rest p rest' p1 i :
  iteration arg rest p = Some (Continue rest' p1) →
  (∀ k, m_table p !! k ≠ Some i) →
  m_flags p1 !! i = m_flags p !! i.
Proof.
  unfold iteration, get. intros Hit Hi. revert Hit.
  destruct (is_flag (m_options p) arg); simpl; [|by intros [= _ <-]].
  destruct (tokenize _ _) as [[[id sep_start] found_sep]|]; simpl; [|done].
  destruct (m_table p !! id) as [ptr|] eqn:Hid.
  - assert (Hne : ptr ≠ i) by (intros ->; by eapply Hi).
    destruct (m_flags p !! ptr) as [flag|]; simpl; [|done].
    destruct (decide _).
    + intros [= _ <-]. simpl. by rewrite list_lookup_insert_ne.
    + destruct (value_source _ _ _ _) as [[value_str rest'']|]; [|done].
      destruct (set_value _ flag) as [[] flag']; [|done].
      intros [= _ <-]. simpl. by rewrite list_lookup_insert_ne.
  - destruct (strict_flags _); [done|]. by intros [= _ <-].
Qed.

(** X20: [parse] writes to flags through the table only.  A flag that
    no key of the table leads to, such as a flag all of whose keys were
    taken when it was registered, is never written to. *)
Theorem unreachable_flag_is_never_written p r p' i :
  parse p = Some (r, p') →
  (∀ k, get p k ≠ Some i) →
  m_flags p' !! i = m_flags p !! i.
Proof.
  intros Hrun Hi.
  apply (parse_from_preserves
           (λ q q', m_table q' = m_table q ∧
                    ((∀ k, m_table q !! k ≠ Some i) →
                     m_flags q' !! i = m_flags q !! i))) in Hrun.
  - by apply Hrun.
  - done.
  - intros q1 q2 q3 [Ht1 H1] [Ht2 H2]. split; [by rewrite Ht2|].
    intros Hq. rewrite H2, H1; [done..|]. by rewrite Ht1.
  - intros arg rest q rest' q1 Hit. split.
    + by apply iteration_continue in Hit as [(? & _) _].
    + by eapply iteration_writes_through_the_table.
Qed.

Lemma unreachable_flag_is_never_written_witness :
  let shadow :=
    {| name := sv "name"; description := []; data := data_string (sv "mine");
       type := String; aliases := [sv "n"]; triggered := false |} in
  let p := set shadow (examples.parser (examples.dashes "=" true)
                         ["--name=x"; "--n"; "y"]) in
  ∃ p', parse p = Some (Result_default, p') ∧
        m_flags p' !! 3 = Some shadow ∧
        data <$> m_flags p' !! 0 = Some (data_string (sv "y")).
Proof.
  intros shadow p. eexists. split; [vm_compute; reflexivity|].
  split; [|reflexivity].
  opose proof* (unreachable_flag_is_never_written p _ _ 3) as Hsame;
    [vm_compute; reflexivity| |exact Hsame].
  assert (Hall : map_Forall (λ _ ptr, ptr ≠ 3) (m_table p))
    by (apply (bool_decide_unpack _); vm_compute; exact I).
  intros k Hk. by apply Hall in Hk.
Defined.

End flag.
